(** * Mosaic TPU dialect: tiled layouts, their affine maps, and the
    divisibility prover

  A shallow embedding of [jaxlib/mosaic/dialect/tpu/tpu_dialect.cc]:

  - [TiledLayoutAttr.print] / [TiledLayoutAttr.parse], over a model of the
    host's assembly printer and parser ([Asm]);
  - [TiledLayoutAttr.getAffineMap], over a model of the host's affine
    expressions and maps ([Affine]);
  - [isGuaranteedDivisible], over expression trees ([Expr]) and over
    expression graphs with explicit value numbering ([Graph]).

  Definitions come first, the theorems about them follow. *)

From Stdlib Require Import ZArith NArith List String Ascii Bool Lia.
From Stdlib Require Import Decimal DecimalString DecimalN DecimalPos.
From Stdlib Require Import Wellfounded Wf_nat.
Import ListNotations.

Local Open Scope Z_scope.

(* ================================================================== *)
(** * Part I. Definitions                                              *)
(* ================================================================== *)

(** ** 64-bit signed integers *)

Module Int64.

Definition min_signed : Z := - 2 ^ 63.
Definition max_signed : Z := 2 ^ 63 - 1.

(** The values an [int64_t] can hold. *)
Definition in_range (z : Z) : bool :=
  (min_signed <=? z) && (z <=? max_signed).

End Int64.

(** ** The host's assembly parser and printer

  Modelled from the spec: [AsmParser] and [AsmPrinter] are classes of
  the host framework, outside this file.  Section 6 of the
  specification requires of them a character stream with
  consume-literal, consume-optional-literal (a probe that does not
  fail) and consume-integer, each signalling success or failure.  The
  model is a lexer that skips white space and splits the text into
  punctuation and decimal integer literals, the [parseX] and
  [parseOptionalX] primitives, which consume one token, and
  [parseInteger], which reads an optionally negated literal into an
  [int64_t] and fails when it does not fit. *)

Module Asm.

Inductive Token : Type :=
| less | greater
| l_paren | r_paren
| l_square | r_square
| comma | minus
| integer (n : N)
| other (c : ascii).

(** The value of a decimal digit (the characters 48 to 57). *)
Definition digit_of (c : ascii) : option N :=
  let code := N_of_ascii c in
  if (48 <=? code)%N && (code <=? 57)%N then Some (code - 48)%N else None.

(** The token a character that is not a digit stands for; white space
    stands for none. *)
Definition punct (c : ascii) : list Token :=
  match c with
  | " "%char | "009"%char | "010"%char | "013"%char => []
  | "<"%char => [less]
  | ">"%char => [greater]
  | "("%char => [l_paren]
  | ")"%char => [r_paren]
  | "["%char => [l_square]
  | "]"%char => [r_square]
  | ","%char => [comma]
  | "-"%char => [minus]
  | _ => [other c]
  end.

(** The integer literal being read, if any, ends here. *)
Definition flush (cur : option N) : list Token :=
  match cur with
  | Some n => [integer n]
  | None => []
  end.

(** The value of the digits read so far. *)
Definition so_far (cur : option N) : N :=
  match cur with
  | Some n => n
  | None => 0%N
  end.

(** [lex cur s]: the tokens of [s], where [cur] is the integer literal
    being read, if any. *)
Fixpoint lex (cur : option N) (s : string) : list Token :=
  match s with
  | EmptyString => flush cur
  | String c s' =>
      match digit_of c with
      | Some k => lex (Some (10 * so_far cur + k)%N) s'
      | None => (flush cur ++ punct c ++ lex None s')%list
      end
  end.

(** Text at which an integer literal ends: the end of the text, or a
    character that is not a digit. *)
Definition ends_literal (s : string) : Prop :=
  match s with
  | EmptyString => True
  | String c _ => digit_of c = None
  end.

Definition tokens (s : string) : list Token := lex None s.

(** *** Parser results

    A parser either succeeds with a value and the rest of the stream,
    or fails (the [failure()] of the host).  [OutOfFuel] is an artefact
    of the model's bounded loops; [ParseProofs.parse_total] shows
    that [TiledLayoutAttr.parse] never produces it. *)

Inductive Result (A : Type) : Type :=
| Ok (a : A) (rest : list Token)
| Fail
| OutOfFuel.
Arguments Ok {A} a rest.
Arguments Fail {A}.
Arguments OutOfFuel {A}.

Definition Parser (A : Type) : Type := list Token -> Result A.

Definition ret {A : Type} (a : A) : Parser A := fun ts => Ok a ts.

Definition bind {A B : Type} (p : Parser A) (k : A -> Parser B) : Parser B :=
  fun ts =>
    match p ts with
    | Ok a ts' => k a ts'
    | Fail => Fail
    | OutOfFuel => OutOfFuel
    end.

Definition out_of_fuel {A : Type} : Parser A := fun _ => OutOfFuel.

(** [is_tok k t]: token [t] is the punctuation [k]. *)
Definition is_tok (k t : Token) : bool :=
  match k, t with
  | less, less | greater, greater
  | l_paren, l_paren | r_paren, r_paren
  | l_square, l_square | r_square, r_square
  | comma, comma | minus, minus => true
  | _, _ => false
  end.

(** [parseLess], [parseComma], [parseGreater]: the next token must be
    [k]. *)
Definition parseToken (k : Token) : Parser unit :=
  fun ts =>
    match ts with
    | t :: rest => if is_tok k t then Ok tt rest else Fail
    | [] => Fail
    end.

(** [parseOptionalLParen] and the like: consume [k] if it is there and
    say whether it was. *)
Definition parseOptionalToken (k : Token) : Parser bool :=
  fun ts =>
    match ts with
    | t :: rest => if is_tok k t then Ok true rest else Ok false ts
    | [] => Ok false ts
    end.

Definition parseLess : Parser unit := parseToken less.
Definition parseGreater : Parser unit := parseToken greater.
Definition parseComma : Parser unit := parseToken comma.
Definition parseOptionalLParen : Parser bool := parseOptionalToken l_paren.
Definition parseOptionalRParen : Parser bool := parseOptionalToken r_paren.
Definition parseOptionalLSquare : Parser bool := parseOptionalToken l_square.
Definition parseOptionalRSquare : Parser bool := parseOptionalToken r_square.

(** [parseInteger(int64_t &)]: an integer literal, or a minus sign and
    an integer literal, whose value fits an [int64_t]. *)
Definition parseInteger : Parser Z :=
  fun ts =>
    match ts with
    | integer n :: rest =>
        if Int64.in_range (Z.of_N n) then Ok (Z.of_N n) rest else Fail
    | minus :: integer n :: rest =>
        if Int64.in_range (- Z.of_N n) then Ok (- Z.of_N n) rest else Fail
    | _ => Fail
    end.

(** *** Printer *)

Definition print_N (n : N) : string := NilEmpty.string_of_uint (N.to_uint n).

(** [printer << int64_t]: signed decimal. *)
Definition print_int64 (z : Z) : string :=
  if z <? 0 then String "-" (print_N (Z.to_N (- z))) else print_N (Z.to_N z).

End Asm.

Module ParserNotation.
Notation "x <- p ;; k" := (Asm.bind p (fun x => k))
  (at level 61, p at next level, right associativity).
End ParserNotation.

(** ** Tiles and tiled layouts *)

Module Tile.

(** [xla::Tile]: the sizes of one level of tiling. *)
Record t : Type := Build { dimensions : list Z }.

(** The items of [l], with a comma between neighbours. *)
Fixpoint join (l : list string) : string :=
  match l with
  | [] => EmptyString
  | [x] => x
  | x :: rest => (x ++ String "," (join rest))%string
  end.

(** Modelled from the spec: [xla::Tile::ToString] is defined in the XLA
    library ([xla/layout.h]), outside this file.  The specification
    (section 4.1) says that each tile is printed as [(d0,d1,...)]: the
    sizes in decimal, separated by commas, between parentheses. *)
Definition ToString (tile : t) : string :=
  String "(" (join (map Asm.print_int64 (dimensions tile)) ++ ")")%string.

End Tile.

Module TiledLayoutAttr.
Import Asm ParserNotation.

Record t : Type := get { getTiles : list Tile.t; getTileStrides : list Z }.

(** The loop [for (tile : getTiles()) printer << tile.ToString()]. *)
Fixpoint printTiles (tiles : list Tile.t) : string :=
  match tiles with
  | [] => EmptyString
  | tile :: rest => (Tile.ToString tile ++ printTiles rest)%string
  end.

(** The loop over [getTileStrides()]: a comma before every stride but
    the first ([i > 0] is [negb first]). *)
Fixpoint printStrides (first : bool) (strides : list Z) : string :=
  match strides with
  | [] => EmptyString
  | stride :: rest =>
      ((if first then EmptyString else ",")
         ++ print_int64 stride ++ printStrides false rest)%string
  end.

Definition print (a : t) : string :=
  ("<" ++ printTiles (getTiles a)
       ++ ",[" ++ printStrides true (getTileStrides a) ++ "]>")%string.

(** The two inner loops of [parse] have one shape,
    [while (!succeeded(parseOptionalClose())) {...}], where
    [parseOptionalClose] is [parseOptionalRParen] for the sizes of a tile
    and [parseOptionalRSquare] for the strides: unless the closing token
    comes next, read a comma (except before the first item) and an
    integer, and append it.  Every round that goes on consumes a token,
    so [S (length ts)] rounds are enough for the stream [ts]. *)
Fixpoint parseIntegers (close : Token) (fuel : nat) (first : bool)
         (acc : list Z) : Parser (list Z) :=
  match fuel with
  | O => out_of_fuel
  | S fuel' =>
      closed <- parseOptionalToken close ;;
      if closed : bool then ret acc
      else
        _ <- (if first then ret tt else parseComma) ;;
        size <- parseInteger ;;
        parseIntegers close fuel' false (acc ++ [size])
  end.

(** A loop that starts with what is left of the stream. *)
Definition with_fuel {A : Type} (loop : nat -> Parser A) : Parser A :=
  fun ts => loop (S (List.length ts)) ts.

(** [while (succeeded(parser.parseOptionalLParen())) {...}]. *)
Fixpoint parseTiles (fuel : nat) (tiles : list Tile.t)
  : Parser (list Tile.t) :=
  match fuel with
  | O => out_of_fuel
  | S fuel' =>
      opened <- parseOptionalLParen ;;
      if opened : bool then
        dims <- with_fuel (fun n => parseIntegers r_paren n true []) ;;
        parseTiles fuel' (tiles ++ [Tile.Build dims])
      else ret tiles
  end.

(** [TiledLayoutAttr::parse]: every [return {}] of the source is a
    failure of the parser here. *)
Definition parse : Parser t :=
  _ <- parseLess ;;
  tiles <- with_fuel (fun n => parseTiles n []) ;;
  _ <- parseComma ;;
  opened <- parseOptionalLSquare ;;
  if opened : bool then
    tile_strides <- with_fuel (fun n => parseIntegers r_square n true []) ;;
    _ <- parseGreater ;;
    ret (get tiles tile_strides)
  else fun _ => Fail.

(** [parse] on a text: the attribute, or nothing (the null [Attribute]
    of the source). *)
Definition parseText (s : string) : option t :=
  match parse (tokens s) with
  | Ok a _ => Some a
  | _ => None
  end.

End TiledLayoutAttr.

(** ** The grammar of the specification

  Section 4.1 of the specification gives the text of a descriptor as

    descriptor := '<' tile* ',' '[' stride_list ']' '>'
    tile := '(' int_list ')'
    int_list, stride_list := [ int (',' int)* ]

  The relations below say which token sequences are such a text, and
  for which descriptor; an [int] is a literal, optionally negated, that
  fits an [int64_t]. *)

Module Grammar.
Import Asm.

Inductive int : Z -> list Token -> Prop :=
| int_literal n :
    Int64.in_range (Z.of_N n) = true ->
    int (Z.of_N n) [integer n]
| int_negated n :
    Int64.in_range (- Z.of_N n) = true ->
    int (- Z.of_N n) [minus; integer n].

(** [(',' int)*] *)
Inductive more_ints : list Z -> list Token -> Prop :=
| more_ints_done : more_ints [] []
| more_ints_next z zs tz ts :
    int z tz -> more_ints zs ts ->
    more_ints (z :: zs) (comma :: tz ++ ts).

(** [[ int (',' int)* ]] *)
Inductive int_list : list Z -> list Token -> Prop :=
| int_list_empty : int_list [] []
| int_list_some z zs tz ts :
    int z tz -> more_ints zs ts ->
    int_list (z :: zs) (tz ++ ts).

Inductive tile : Tile.t -> list Token -> Prop :=
| tile_intro zs ts :
    int_list zs ts ->
    tile (Tile.Build zs) (l_paren :: ts ++ [r_paren]).

(** [tile*] *)
Inductive tiles : list Tile.t -> list Token -> Prop :=
| tiles_done : tiles [] []
| tiles_next x xs tx ts :
    tile x tx -> tiles xs ts ->
    tiles (x :: xs) (tx ++ ts).

Inductive descriptor : TiledLayoutAttr.t -> list Token -> Prop :=
| descriptor_intro xs strides tx ts :
    tiles xs tx -> int_list strides ts ->
    descriptor (TiledLayoutAttr.get xs strides)
               (less :: tx ++ comma :: l_square :: ts ++ [r_square; greater]).

(** The tokens that close a list of integers. *)
Definition closing (k : Token) : Prop := k = r_paren \/ k = r_square.

(** The stream does not go on with another tile. *)
Definition no_tile_ahead (ts : list Token) : Prop :=
  parseOptionalLParen ts = Ok false ts.

(** A text is well formed when its tokens start with a descriptor. *)
Definition well_formed (ts : list Token) : Prop :=
  exists a body rest, ts = body ++ rest /\ descriptor a body.

(** The integers of a descriptor all fit an [int64_t]. *)
Definition in_range (a : TiledLayoutAttr.t) : Prop :=
  Forall (fun x => Forall (fun z => Int64.in_range z = true) (Tile.dimensions x))
         (TiledLayoutAttr.getTiles a)
  /\ Forall (fun z => Int64.in_range z = true) (TiledLayoutAttr.getTileStrides a).

(** *** The tokens of the printed text *)

Definition print_int (z : Z) : list Token :=
  if z <? 0 then [minus; integer (Z.to_N (- z))] else [integer (Z.to_N z)].

Fixpoint print_more_ints (zs : list Z) : list Token :=
  match zs with
  | [] => []
  | z :: rest => comma :: print_int z ++ print_more_ints rest
  end.

Definition print_int_list (zs : list Z) : list Token :=
  match zs with
  | [] => []
  | z :: rest => print_int z ++ print_more_ints rest
  end.

Definition print_tile (x : Tile.t) : list Token :=
  l_paren :: print_int_list (Tile.dimensions x) ++ [r_paren].

Definition print_descriptor (a : TiledLayoutAttr.t) : list Token :=
  less :: flat_map print_tile (TiledLayoutAttr.getTiles a)
    ++ comma :: l_square
    :: print_int_list (TiledLayoutAttr.getTileStrides a)
    ++ [r_square; greater].

(** The value of the digits [u] read after digits of value [n]. *)
Fixpoint read_uint (n : N) (u : uint) : N :=
  match u with
  | Nil => n
  | D0 u' => read_uint (10 * n + 0) u'
  | D1 u' => read_uint (10 * n + 1) u'
  | D2 u' => read_uint (10 * n + 2) u'
  | D3 u' => read_uint (10 * n + 3) u'
  | D4 u' => read_uint (10 * n + 4) u'
  | D5 u' => read_uint (10 * n + 5) u'
  | D6 u' => read_uint (10 * n + 6) u'
  | D7 u' => read_uint (10 * n + 7) u'
  | D8 u' => read_uint (10 * n + 8) u'
  | D9 u' => read_uint (10 * n + 9) u'
  end%N.

End Grammar.


(** ** The host's affine expressions and maps

  Modelled from the spec: [AffineExpr] and [AffineMap] are classes of
  the host framework, outside this file.  Sections 6 and 9 of the
  specification describe a map as a composable function from integer
  tuples to integer tuples, with a number of inputs, a number of
  results and a rule.  The model keeps expressions as syntax trees over
  dimension and symbol identifiers (the host also simplifies them
  while it builds them, which changes neither their number nor their
  value).  [f.compose(g)] has the inputs of [g] and the results of [f],
  and needs [f] to have as many inputs as [g] has results; this is how
  the source builds [tile_map], with [map.getNumResults()] inputs,
  before it calls [tile_map.compose(map)]. *)

Module Affine.

Inductive AffineExprKind : Type := Add | Mul | Mod | FloorDiv | CeilDiv.

Inductive AffineExpr : Type :=
| AffineDimExpr (position : nat)
| AffineSymbolExpr (position : nat)
| AffineConstantExpr (value : Z)
| AffineBinaryOpExpr (kind : AffineExprKind) (lhs rhs : AffineExpr).

Definition getAffineDimExpr (position : nat) : AffineExpr :=
  AffineDimExpr position.

Definition floorDiv (e : AffineExpr) (v : Z) : AffineExpr :=
  AffineBinaryOpExpr FloorDiv e (AffineConstantExpr v).

(** [expr % v]. *)
Definition mod_ (e : AffineExpr) (v : Z) : AffineExpr :=
  AffineBinaryOpExpr Mod e (AffineConstantExpr v).

Record AffineMap : Type := get {
  getNumDims : nat;
  getNumSymbols : nat;
  getResults : list AffineExpr
}.

Definition getNumResults (map : AffineMap) : nat :=
  List.length (getResults map).

Definition getMultiDimIdentityMap (numDims : nat) : AffineMap :=
  get numDims 0 (List.map getAffineDimExpr (seq 0 numDims)).

(** [AffineExpr::replaceDimsAndSymbols]: an identifier beyond the
    replacement list stays as it is. *)
Fixpoint replaceDimsAndSymbols (dimReplacements symReplacements : list AffineExpr)
         (e : AffineExpr) : AffineExpr :=
  match e with
  | AffineDimExpr position => nth position dimReplacements e
  | AffineSymbolExpr position => nth position symReplacements e
  | AffineConstantExpr _ => e
  | AffineBinaryOpExpr kind lhs rhs =>
      AffineBinaryOpExpr kind
        (replaceDimsAndSymbols dimReplacements symReplacements lhs)
        (replaceDimsAndSymbols dimReplacements symReplacements rhs)
  end.

(** [this.compose(map)]: the results of [this], with each dimension
    replaced by the corresponding result of [map]; the symbols of
    [map] are renumbered to come after those of [this]. *)
Definition compose (this map : AffineMap) : AffineMap :=
  let numDims := getNumDims map in
  let numSymbolsThisMap := getNumSymbols this in
  let numSymbols := (numSymbolsThisMap + getNumSymbols map)%nat in
  let newDims := List.map AffineDimExpr (seq 0 numDims) in
  let newSymbols :=
    List.map AffineSymbolExpr (seq numSymbolsThisMap (getNumSymbols map)) in
  let newMap := List.map (replaceDimsAndSymbols newDims newSymbols)
                         (getResults map) in
  get numDims numSymbols
      (List.map (replaceDimsAndSymbols newMap []) (getResults this)).

(** *** Meaning *)

Definition evalKind (kind : AffineExprKind) (a b : Z) : Z :=
  match kind with
  | Add => a + b
  | Mul => a * b
  | Mod => a mod b
  | FloorDiv => a / b
  | CeilDiv => - ((- a) / b)
  end.

Fixpoint evalExpr (dims syms : list Z) (e : AffineExpr) : Z :=
  match e with
  | AffineDimExpr position => nth position dims 0
  | AffineSymbolExpr position => nth position syms 0
  | AffineConstantExpr value => value
  | AffineBinaryOpExpr kind lhs rhs =>
      evalKind kind (evalExpr dims syms lhs) (evalExpr dims syms rhs)
  end.

Definition eval (map : AffineMap) (dims syms : list Z) : list Z :=
  List.map (evalExpr dims syms) (getResults map).

(** Every dimension identifier of [e] is below [n]. *)
Fixpoint dims_below (n : nat) (e : AffineExpr) : Prop :=
  match e with
  | AffineDimExpr position => (position < n)%nat
  | AffineBinaryOpExpr _ lhs rhs => dims_below n lhs /\ dims_below n rhs
  | AffineSymbolExpr _ | AffineConstantExpr _ => True
  end.

End Affine.

Module TiledLayoutMap.
Import Affine.

(** The outcome of [getAffineMap]: [LOG(FATAL)] ends the process. *)
Inductive Outcome : Type :=
| Fatal
| Returns (map : AffineMap).

(** [for (i = 0; i < dimensions.size(); ++i) exprs.push_back(f(i, dimensions[i]))]. *)
Fixpoint push_tiled (f : nat -> Z -> AffineExpr) (i : nat) (dimensions : list Z)
  : list AffineExpr :=
  match dimensions with
  | [] => []
  | d :: rest => f i d :: push_tiled f (S i) rest
  end.

(** The expressions one round of the loop collects in [exprs]. *)
Definition tile_exprs (untiled_dims : nat) (dimensions : list Z)
  : list AffineExpr :=
  List.map getAffineDimExpr (seq 0 untiled_dims)
  ++ push_tiled (fun i d => floorDiv (getAffineDimExpr (untiled_dims + i)) d)
                0 dimensions
  ++ push_tiled (fun i d => mod_ (getAffineDimExpr (untiled_dims + i)) d)
                0 dimensions.

(** [int64_t untiled_dims = map.getNumResults() - dimensions.size()]:
    the difference of the two sizes as a signed integer. *)
Definition untiled_dims (map : AffineMap) (tile : Tile.t) : Z :=
  Z.of_nat (getNumResults map) - Z.of_nat (List.length (Tile.dimensions tile)).

(** [AffineMap::get(map.getNumResults(), 0, exprs, ctx)] for one tile. *)
Definition tile_map (map : AffineMap) (tile : Tile.t) : AffineMap :=
  Affine.get (getNumResults map) 0
    (tile_exprs (Z.to_nat (untiled_dims map tile)) (Tile.dimensions tile)).

(** One round of the loop over the tiles. *)
Definition step (map : AffineMap) (tile : Tile.t) : Outcome :=
  if untiled_dims map tile <? 0 then Fatal
  else Returns (compose (tile_map map tile) map).

Fixpoint loop (map : AffineMap) (tiles : list Tile.t) : Outcome :=
  match tiles with
  | [] => Returns map
  | tile :: rest =>
      match step map tile with
      | Fatal => Fatal
      | Returns map' => loop map' rest
      end
  end.

Definition getAffineMap (a : TiledLayoutAttr.t) : Outcome :=
  loop (getMultiDimIdentityMap (List.length (TiledLayoutAttr.getTileStrides a)))
       (TiledLayoutAttr.getTiles a).

(** The sum of the ranks of the tiles. *)
Definition sum_of_ranks (tiles : list Tile.t) : nat :=
  list_sum (List.map (fun tile => List.length (Tile.dimensions tile)) tiles).

(** The tiles of section 8, property 6 of the specification. *)
Definition tile_8_128 : Tile.t := Tile.Build [8; 128].
Definition tile_1_128 : Tile.t := Tile.Build [1; 128].

End TiledLayoutMap.

(** ** The divisibility prover *)

(** The [getValue()] of an [arith.constant]. *)
Inductive Attribute : Type :=
| IntegerAttr (value : Z)
| OtherAttr (tag : nat).

(** *** On expression trees

  A value together with everything it is computed from: the unfolding
  of a finite acyclic data-flow graph from one of its values. *)

Module Expr.

Inductive Value : Type :=
| AssumeMultipleOp (operand : Value) (multiple : Z)
| MulIOp (lhs rhs : Value)
| ConstantOp (value : Attribute)
| IndexCastOp (operand : Value)
| Opaque (id : nat).

(** [divisor] and [fuel] are [int64_t]s, computed with here as integers.
    From a positive [fuel] the source computes [fuel / 2], [fuel - 1]
    and [(fuel + 1) / 2]; only [fuel + 1] can leave the range of an
    [int64_t], and only at its largest value, where C++ leaves the
    result undefined ([ExprProofs.fuel_stays_in_range]).  [/] and [%]
    truncate, like [Z.quot] and [Z.rem].  A value has one defining
    operation, so the order of the tests on it does not matter. *)
Fixpoint isGuaranteedDivisible (value : Value) (divisor fuel : Z) : bool :=
  if fuel <=? 0 then false
  else
    match value with
    | AssumeMultipleOp _ multiple => Z.rem multiple divisor =? 0
    | MulIOp lhs rhs =>
        isGuaranteedDivisible rhs divisor (Z.quot fuel 2)
        || isGuaranteedDivisible lhs divisor (Z.quot (fuel + 1) 2)
    | ConstantOp value =>
        match value with
        | IntegerAttr int_attr => Z.rem int_attr divisor =? 0
        | OtherAttr _ => false
        end
    | IndexCastOp operand => isGuaranteedDivisible operand divisor (fuel - 1)
    | Opaque _ => false
    end.

(** *** Meaning

    The integer a value stands for, given the integers [env] assigns to
    the values the prover does not look into.  [arith.muli] is the
    product of integers, [arith.index_cast] and [tpu.assume_multiple]
    pass their operand on. *)
Fixpoint denote (env : nat -> Z) (value : Value) : Z :=
  match value with
  | AssumeMultipleOp operand _ => denote env operand
  | MulIOp lhs rhs => denote env lhs * denote env rhs
  | ConstantOp (IntegerAttr c) => c
  | ConstantOp (OtherAttr tag) => env tag
  | IndexCastOp operand => denote env operand
  | Opaque id => env id
  end.

(** [constant(6) * x], section 8, property 4 of the specification. *)
Definition six_times (x : Value) : Value :=
  MulIOp (ConstantOp (IntegerAttr 6)) x.

(** [castToIndex(mul(constant(3), mul(constant(4), y)))], section 8,
    property 7 of the specification. *)
Definition scenario (y : Value) : Value :=
  IndexCastOp
    (MulIOp (ConstantOp (IntegerAttr 3))
            (MulIOp (ConstantOp (IntegerAttr 4)) y)).

(** Every [tpu.assume_multiple] in the tree states a fact. *)
Fixpoint honest (env : nat -> Z) (value : Value) : Prop :=
  match value with
  | AssumeMultipleOp operand multiple =>
      (multiple | denote env operand) /\ honest env operand
  | MulIOp lhs rhs => honest env lhs /\ honest env rhs
  | IndexCastOp operand => honest env operand
  | ConstantOp _ | Opaque _ => True
  end.

End Expr.

(** *** On expression graphs

  Values are numbered; the operation that defines value [v] is the
  [v]-th of the graph, and a number beyond the graph is a value with no
  defining operation (a block argument).  Nothing in the type keeps an
  operation from using its own result, so the prover is run with a
  bound [gas] on the depth of its recursion and answers [None] when the
  bound is hit. *)

Module Graph.

Inductive Operation : Type :=
| AssumeMultipleOp (operand : nat) (multiple : Z)
| MulIOp (lhs rhs : nat)
| ConstantOp (value : Attribute)
| IndexCastOp (operand : nat)
| OtherOp (operands : list nat).

Definition t : Type := list Operation.

Definition getDefiningOp (g : t) (value : nat) : option Operation :=
  nth_error g value.

Definition getOperands (op : Operation) : list nat :=
  match op with
  | AssumeMultipleOp operand _ => [operand]
  | MulIOp lhs rhs => [lhs; rhs]
  | ConstantOp _ => []
  | IndexCastOp operand => [operand]
  | OtherOp operands => operands
  end.

(** [operand_edge g u v]: value [u] is an operand of the operation that
    defines [v]. *)
Definition operand_edge (g : t) (u v : nat) : Prop :=
  exists op, getDefiningOp g v = Some op /\ In u (getOperands op).

(** The graph has no cycle (it is finite by its type): there is no
    infinite descent along operand edges. *)
Definition acyclic (g : t) : Prop := well_founded (operand_edge g).

(** Every operation uses values defined before it only. *)
Definition ssa_ordered (g : t) : bool :=
  forallb
    (fun '(v, op) => forallb (fun u => Nat.ltb u v) (getOperands op))
    (combine (seq 0 (List.length g)) g).

Fixpoint isGuaranteedDivisible (g : t) (gas : nat) (value : nat)
         (divisor fuel : Z) : option bool :=
  match gas with
  | O => None
  | S gas' =>
      if fuel <=? 0 then Some false
      else
        match getDefiningOp g value with
        | Some (AssumeMultipleOp _ multiple) =>
            Some (Z.rem multiple divisor =? 0)
        | Some (MulIOp lhs rhs) =>
            match isGuaranteedDivisible g gas' rhs divisor (Z.quot fuel 2) with
            | Some true => Some true
            | Some false =>
                isGuaranteedDivisible g gas' lhs divisor (Z.quot (fuel + 1) 2)
            | None => None
            end
        | Some (ConstantOp (IntegerAttr int_attr)) =>
            Some (Z.rem int_attr divisor =? 0)
        | Some (ConstantOp (OtherAttr _)) => Some false
        | Some (IndexCastOp operand) =>
            isGuaranteedDivisible g gas' operand divisor (fuel - 1)
        | Some (OtherOp _) | None => Some false
        end
  end.

(** [unfolds g v e]: the tree [e] is value [v] of [g] with everything
    it is computed from. *)
Inductive unfolds (g : t) : nat -> Expr.Value -> Prop :=
| unfolds_assume v operand multiple e :
    getDefiningOp g v = Some (AssumeMultipleOp operand multiple) ->
    unfolds g operand e ->
    unfolds g v (Expr.AssumeMultipleOp e multiple)
| unfolds_mul v lhs rhs el er :
    getDefiningOp g v = Some (MulIOp lhs rhs) ->
    unfolds g lhs el -> unfolds g rhs er ->
    unfolds g v (Expr.MulIOp el er)
| unfolds_constant v a :
    getDefiningOp g v = Some (ConstantOp a) ->
    unfolds g v (Expr.ConstantOp a)
| unfolds_cast v operand e :
    getDefiningOp g v = Some (IndexCastOp operand) ->
    unfolds g operand e ->
    unfolds g v (Expr.IndexCastOp e)
| unfolds_other v operands :
    getDefiningOp g v = Some (OtherOp operands) ->
    unfolds g v (Expr.Opaque v)
| unfolds_argument v :
    getDefiningOp g v = None ->
    unfolds g v (Expr.Opaque v).

(** The scenario of section 8, property 7, as a graph: value 5 is
    [castToIndex(mul(constant(3), mul(constant(4), y)))], with [y]
    (value 1) the result of some other operation. *)
Definition scenario_graph : t :=
  [ ConstantOp (IntegerAttr 3);
    OtherOp [];
    ConstantOp (IntegerAttr 4);
    MulIOp 2 1;
    MulIOp 0 3;
    IndexCastOp 4 ].

End Graph.

(** * Definitions for the further properties of Part III *)

(** ** What follows in the stream *)

Module Ahead.
Import Asm.

(** The stream goes on with the punctuation [k]. *)
Definition starts_with (k : Token) (ts : list Token) : bool :=
  match ts with
  | t :: _ => is_tok k t
  | [] => false
  end.

(** After the items [zs] of a list, the stream neither closes the list
    with [close] nor goes on with an item: no integer follows the opening
    token when there is no item yet, and otherwise no comma follows, or a
    comma with no integer after it. *)
Definition breaks_list (close : Token) (zs : list Z) (rest : list Token) : Prop :=
  starts_with close rest = false
  /\ match zs with
     | [] => parseInteger rest = Fail
     | _ :: _ =>
         starts_with comma rest = false
         \/ exists rest', rest = comma :: rest' /\ parseInteger rest' = Fail
     end.

End Ahead.

(** ** What one level of tiling does to an index *)

Module Tiling.

(** [x / d] and [x mod d], item by item. *)
Fixpoint quotients (xs ds : list Z) : list Z :=
  match xs, ds with
  | x :: xs', d :: ds' => x / d :: quotients xs' ds'
  | _, _ => []
  end.

Fixpoint remainders (xs ds : list Z) : list Z :=
  match xs, ds with
  | x :: xs', d :: ds' => x mod d :: remainders xs' ds'
  | _, _ => []
  end.

(** The index [xs] with its dimensions from [untiled] on split by the
    tile sizes [ds]: the leading dimensions as they are, then the index
    of the tile, then the index within the tile. *)
Definition tiled (untiled : nat) (ds xs : list Z) : list Z :=
  firstn untiled xs
  ++ quotients (skipn untiled xs) ds
  ++ remainders (skipn untiled xs) ds.

(** The rank of a tile and the sizes of a list of tiles. *)
Definition rank (tile : Tile.t) : nat := List.length (Tile.dimensions tile).

Definition positive_sizes (tiles : list Tile.t) : Prop :=
  Forall (fun tile => Forall (fun d => 0 < d) (Tile.dimensions tile)) tiles.

End Tiling.

(** ** What the prover can find at all *)

Module Search.
Import Expr.

(** The search of [isGuaranteedDivisible] without its budget: some
    factor that the search reaches through multiplications and index
    casts is a constant or an assumed multiple that [divisor] divides. *)
Fixpoint has_known_multiple (value : Value) (divisor : Z) : bool :=
  match value with
  | AssumeMultipleOp _ multiple => Z.rem multiple divisor =? 0
  | MulIOp lhs rhs =>
      has_known_multiple rhs divisor || has_known_multiple lhs divisor
  | ConstantOp (IntegerAttr c) => Z.rem c divisor =? 0
  | ConstantOp (OtherAttr _) => false
  | IndexCastOp operand => has_known_multiple operand divisor
  | Opaque _ => false
  end.

(** A fuel with which the search reaches every factor: a cast costs one
    unit, a multiplication halves what is left. *)
Fixpoint fuel_needed (value : Value) : Z :=
  match value with
  | MulIOp lhs rhs => 2 * Z.max (fuel_needed lhs) (fuel_needed rhs)
  | IndexCastOp operand => 1 + fuel_needed operand
  | AssumeMultipleOp _ _ | ConstantOp _ | Opaque _ => 1
  end.

End Search.

(** ** The meaning of a graph *)

Module GraphMeaning.
Import Graph.

(** [assignment] gives every value of the graph an integer that agrees
    with the operation defining it: a constant has its value, a product
    is the product of its operands, an index cast and an assumption pass
    their operand on, and what an assumption assumes holds. *)
Definition consistent (g : Graph.t) (assignment : nat -> Z) : Prop :=
  forall value op,
    getDefiningOp g value = Some op ->
    match op with
    | AssumeMultipleOp operand multiple =>
        assignment value = assignment operand
        /\ (multiple | assignment value)
    | MulIOp lhs rhs => assignment value = assignment lhs * assignment rhs
    | ConstantOp (IntegerAttr c) => assignment value = c
    | IndexCastOp operand => assignment value = assignment operand
    | ConstantOp (OtherAttr _) | OtherOp _ => True
    end.

End GraphMeaning.

(** ** A chain of multiplications *)

Module Chain.
Import Graph.

(** Value 0 is the constant 6, and value [i + 1] is [value i * value 0]:
    the last value, [n], is a product nested [n] deep on the left. *)
Definition mul_chain (n : nat) : Graph.t :=
  ConstantOp (IntegerAttr 6) :: List.map (fun i => MulIOp i 0) (seq 0 n).

End Chain.

(* ================================================================== *)
(** * Part II. Theorems                                                *)
(* ================================================================== *)

(** Lists of tokens, with appends associated to the right. *)
Ltac flatten :=
  repeat first [rewrite <- app_assoc | rewrite <- app_comm_cons
               | rewrite app_nil_l].

(** ** The lexer reads back what the printer writes *)

Module LexProofs.
Import Asm Grammar.

Lemma read_uint_pos (u : uint) (p : positive) :
  read_uint (Npos p) u = Npos (Pos.of_uint_acc u p).
Proof.
  revert p; induction u; intro p; cbn [read_uint Pos.of_uint_acc];
    try reflexivity;
    match goal with
    | |- read_uint ?n _ = N.pos (Pos.of_uint_acc _ ?q) =>
        replace n with (N.pos q) by lia
    end; apply IHu.
Qed.

Lemma read_uint_zero (u : uint) : read_uint 0 u = Pos.of_uint u.
Proof.
  induction u; cbn [read_uint Pos.of_uint]; try reflexivity;
    try exact IHu; apply read_uint_pos.
Qed.

Lemma read_to_uint (n : N) : read_uint 0 (N.to_uint n) = n.
Proof. rewrite read_uint_zero. apply DecimalN.Unsigned.of_to. Qed.

Lemma lex_uint (u : uint) : forall cur rest,
  lex cur (NilEmpty.string_of_uint u ++ rest)
  = match u with
    | Nil => lex cur rest
    | _ => lex (Some (read_uint (so_far cur) u)) rest
    end.
Proof.
  induction u; intros cur rest; [reflexivity | ..];
    cbn [NilEmpty.string_of_uint append lex read_uint];
    match goal with
    | |- context [digit_of ?c] =>
        let v := eval vm_compute in (digit_of c) in
        change (digit_of c) with v
    end;
    cbv iota; rewrite IHu; destruct u; reflexivity.
Qed.

Lemma to_uint_not_nil (n : N) : N.to_uint n <> Nil.
Proof.
  destruct n as [|p]; simpl; [discriminate|].
  apply DecimalPos.Unsigned.to_uint_nonnil.
Qed.

Lemma lex_print_N (n : N) (rest : string) :
  lex None (print_N n ++ rest) = lex (Some n) rest.
Proof.
  unfold print_N. rewrite lex_uint.
  pose proof (to_uint_not_nil n) as Hn.
  destruct (N.to_uint n) eqn:E; try congruence;
    rewrite <- E; simpl so_far; rewrite read_to_uint; reflexivity.
Qed.

Lemma lex_literal_end (n : N) (s : string) :
  ends_literal s -> lex (Some n) s = integer n :: lex None s.
Proof.
  destruct s as [|c s]; simpl; [reflexivity|].
  intros ->. reflexivity.
Qed.

Lemma lex_print_int64 (z : Z) (s : string) :
  ends_literal s ->
  lex None (print_int64 z ++ s) = print_int z ++ lex None s.
Proof.
  intro H. unfold print_int64, print_int.
  destruct (z <? 0).
  - change (lex None (String "-" (print_N (Z.to_N (- z))) ++ s))
      with (minus :: lex None (print_N (Z.to_N (- z)) ++ s)).
    rewrite lex_print_N, lex_literal_end by assumption. reflexivity.
  - rewrite lex_print_N, lex_literal_end by assumption. reflexivity.
Qed.

Lemma append_assoc (a b c : string) :
  ((a ++ b) ++ c = a ++ (b ++ c))%string.
Proof. induction a as [|x a IH]; simpl; [|rewrite IH]; reflexivity. Qed.

Lemma lex_join (zs : list Z) : forall (z : Z) (s : string),
  ends_literal s ->
  lex None (Tile.join (map print_int64 (z :: zs)) ++ s)
  = print_int z ++ print_more_ints zs ++ lex None s.
Proof.
  induction zs as [|z' zs IH]; intros z s Hs.
  - simpl Tile.join. rewrite lex_print_int64 by assumption. reflexivity.
  - change (Tile.join (map print_int64 (z :: z' :: zs)))
      with (print_int64 z ++ String "," (Tile.join (map print_int64 (z' :: zs))))%string.
    rewrite append_assoc.
    rewrite lex_print_int64 by reflexivity.
    change (lex None (String "," ?x ++ s)) with (comma :: lex None (x ++ s)).
    rewrite IH by assumption.
    cbn [print_more_ints]. flatten. reflexivity.
Qed.

Lemma lex_ToString (x : Tile.t) (s : string) :
  lex None (Tile.ToString x ++ s) = print_tile x ++ lex None s.
Proof.
  unfold Tile.ToString, print_tile.
  change (lex None (String "(" ?y ++ s)) with (l_paren :: lex None (y ++ s)).
  rewrite append_assoc.
  destruct (Tile.dimensions x) as [|z zs].
  - reflexivity.
  - rewrite lex_join by reflexivity.
    cbn [print_int_list]. flatten. reflexivity.
Qed.

Lemma lex_printTiles (xs : list Tile.t) (s : string) :
  lex None (TiledLayoutAttr.printTiles xs ++ s)
  = flat_map print_tile xs ++ lex None s.
Proof.
  induction xs as [|x xs IH]; [reflexivity|].
  cbn [TiledLayoutAttr.printTiles flat_map].
  rewrite append_assoc, lex_ToString, IH. flatten. reflexivity.
Qed.

Lemma printStrides_ends_literal (zs : list Z) (s : string) :
  ends_literal s ->
  ends_literal (TiledLayoutAttr.printStrides false zs ++ s).
Proof. destruct zs; intro H; [exact H | reflexivity]. Qed.

Lemma lex_printStrides (zs : list Z) : forall (first : bool) (s : string),
  ends_literal s ->
  lex None (TiledLayoutAttr.printStrides first zs ++ s)
  = (if first then print_int_list zs else print_more_ints zs) ++ lex None s.
Proof.
  induction zs as [|z zs IH]; intros first s Hs.
  - destruct first; reflexivity.
  - cbn [TiledLayoutAttr.printStrides].
    rewrite !append_assoc.
    destruct first.
    + change (lex None (EmptyString ++ ?x)) with (lex None x).
      rewrite lex_print_int64 by (apply printStrides_ends_literal; assumption).
      rewrite IH by assumption. cbn [print_int_list].
      flatten. reflexivity.
    + change (lex None ("," ++ ?x)) with (comma :: lex None x).
      rewrite lex_print_int64 by (apply printStrides_ends_literal; assumption).
      rewrite IH by assumption. cbn [print_more_ints].
      flatten. reflexivity.
Qed.

Lemma tokens_print (a : TiledLayoutAttr.t) :
  tokens (TiledLayoutAttr.print a) = print_descriptor a.
Proof.
  unfold tokens, TiledLayoutAttr.print, print_descriptor.
  change (lex None ("<" ++ ?x)) with (less :: lex None x).
  rewrite lex_printTiles.
  change (lex None (",[" ++ ?x)) with (comma :: l_square :: lex None x).
  rewrite lex_printStrides by reflexivity.
  flatten. reflexivity.
Qed.
End LexProofs.

(** ** The parser and the grammar *)

Module ParseProofs.
Import Asm Grammar TiledLayoutAttr.

Lemma is_tok_eq (k t : Token) : is_tok k t = true -> t = k.
Proof. destruct k, t; simpl; intro H; congruence. Qed.

Lemma parseInteger_sound (ts rest : list Token) (z : Z) :
  parseInteger ts = Ok z rest ->
  exists tz, ts = tz ++ rest /\ int z tz /\ tz <> [].
Proof.
  unfold parseInteger.
  destruct ts as [|[] ts]; try discriminate.
  - destruct ts as [|[] ts]; try discriminate.
    destruct (Int64.in_range (- Z.of_N n)) eqn:E; [|discriminate].
    intro H; injection H as <- <-.
    exists [minus; integer n]; repeat split;
      [now constructor | discriminate].
  - destruct (Int64.in_range (Z.of_N n)) eqn:E; [|discriminate].
    intro H; injection H as <- <-.
    exists [integer n]; repeat split; [now constructor | discriminate].
Qed.

Lemma parseInteger_complete (z : Z) (tz rest : list Token) :
  int z tz -> parseInteger (tz ++ rest) = Ok z rest.
Proof. intros [n H|n H]; simpl; rewrite H; reflexivity. Qed.

(** *** The loop over the integers of a list *)

Section IntegerLoop.

Variable close : Token.

Lemma parseIntegers_sound (fuel : nat) :
  forall first acc ts zs rest,
    parseIntegers close fuel first acc ts = Ok zs rest ->
    exists zs' body,
      zs = acc ++ zs' /\ ts = body ++ close :: rest
      /\ if first then int_list zs' body else more_ints zs' body.
Proof.
  induction fuel as [|fuel IH]; intros first acc ts zs rest; [discriminate|].
  cbn [parseIntegers]. unfold bind at 1. unfold parseOptionalToken.
  destruct ts as [|t ts'] eqn:Ets.
  - (* the stream has ended: no integer can be read *)
    unfold bind, ret, parseComma, parseToken, parseInteger.
    destruct first; discriminate.
  - destruct (is_tok close t) eqn:Ht.
    + apply is_tok_eq in Ht; subst t. unfold ret.
      intro H; injection H as <- <-.
      exists [], []. rewrite app_nil_r.
      repeat split. destruct first; constructor.
    + rewrite <- Ets. clear Ets Ht.
      unfold bind at 1.
      destruct first.
      * unfold ret at 1. unfold bind at 1.
        destruct (parseInteger ts) as [size ts2| |] eqn:Hi; try discriminate.
        intro H. apply IH in H as (zs'' & body' & -> & -> & Hm).
        apply parseInteger_sound in Hi as (tz & -> & Hz & _).
        exists (size :: zs''), (tz ++ body').
        flatten. repeat split. now constructor.
      * unfold parseComma, parseToken.
        destruct ts as [|c ts1]; [discriminate|].
        destruct (is_tok comma c) eqn:Hc; [|discriminate].
        apply is_tok_eq in Hc; subst c.
        unfold bind at 1.
        destruct (parseInteger ts1) as [size ts2| |] eqn:Hi; try discriminate.
        intro H. apply IH in H as (zs'' & body' & -> & -> & Hm).
        apply parseInteger_sound in Hi as (tz & -> & Hz & _).
        exists (size :: zs''), (comma :: tz ++ body').
        flatten. repeat split. now constructor.
Qed.

Lemma parseIntegers_total (fuel : nat) :
  forall first acc ts,
    (List.length ts < fuel)%nat ->
    parseIntegers close fuel first acc ts <> OutOfFuel.
Proof.
  induction fuel as [|fuel IH]; intros first acc ts Hf; [lia|].
  cbn [parseIntegers]. unfold bind at 1, parseOptionalToken.
  destruct ts as [|t ts'] eqn:Ets.
  - unfold bind, ret, parseComma, parseToken, parseInteger.
    destruct first; discriminate.
  - destruct (is_tok close t); [discriminate|].
    rewrite <- Ets in *. clear Ets.
    unfold bind at 1.
    destruct first.
    + unfold ret at 1. unfold bind at 1.
      destruct (parseInteger ts) as [size ts2| |] eqn:Hi; try discriminate.
      * apply IH. apply parseInteger_sound in Hi as (tz & -> & _ & Hn).
        rewrite length_app in Hf. destruct tz; [congruence | simpl in Hf; lia].
      * unfold parseInteger in Hi.
        destruct ts as [|[] [|[] ?]]; try discriminate;
          destruct (Int64.in_range _); discriminate.
    + unfold parseComma, parseToken.
      destruct ts as [|c ts1]; [discriminate|].
      destruct (is_tok comma c); [|discriminate].
      unfold bind at 1.
      destruct (parseInteger ts1) as [size ts2| |] eqn:Hi; try discriminate.
      * apply IH. apply parseInteger_sound in Hi as (tz & -> & _ & Hn).
        cbn [List.length] in Hf. rewrite length_app in Hf. lia.
      * unfold parseInteger in Hi.
        destruct ts1 as [|[] [|[] ?]]; try discriminate;
          destruct (Int64.in_range _); discriminate.
Qed.

(** From here on [close] is a closing parenthesis or bracket. *)
Hypothesis close_closes : closing close.

Lemma int_not_closing (z : Z) (tz rest : list Token) :
  int z tz ->
  parseOptionalToken close (tz ++ rest) = Ok false (tz ++ rest).
Proof. destruct close_closes as [-> | ->]; intros [n H|n H]; reflexivity. Qed.

Lemma comma_not_closing (ts : list Token) :
  parseOptionalToken close (comma :: ts) = Ok false (comma :: ts).
Proof. destruct close_closes as [-> | ->]; reflexivity. Qed.

Lemma parseOptional_close (rest : list Token) :
  parseOptionalToken close (close :: rest) = Ok true rest.
Proof. destruct close_closes as [-> | ->]; reflexivity. Qed.

Lemma parseIntegers_more (zs : list Z) (body : list Token) :
  more_ints zs body ->
  forall fuel acc rest,
    (List.length body < fuel)%nat ->
    parseIntegers close fuel false acc (body ++ close :: rest)
    = Ok (acc ++ zs) rest.
Proof.
  intros Hm; induction Hm as [|z zs tz ts Hz Hm IH];
    intros [|fuel] acc rest Hf; try (simpl in Hf; lia);
    cbn [parseIntegers]; unfold bind at 1.
  - rewrite app_nil_l, parseOptional_close.
    unfold ret. rewrite app_nil_r. reflexivity.
  - flatten. rewrite comma_not_closing. unfold bind at 1. cbn [parseComma parseToken is_tok].
    unfold bind at 1. rewrite (parseInteger_complete z tz) by assumption.
    rewrite IH.
    + flatten. reflexivity.
    + cbn [List.length] in Hf. rewrite length_app in Hf. lia.
Qed.

Lemma parseIntegers_complete (zs : list Z) (body : list Token) :
  int_list zs body ->
  forall fuel rest,
    (List.length body < fuel)%nat ->
    parseIntegers close fuel true [] (body ++ close :: rest) = Ok zs rest.
Proof.
  intros [|z zs' tz ts Hz Hm] [|fuel] rest Hf; try (simpl in Hf; lia);
    cbn [parseIntegers]; unfold bind at 1.
  - rewrite app_nil_l, parseOptional_close. reflexivity.
  - flatten. rewrite (int_not_closing z tz) by assumption.
    unfold bind at 1, ret at 1. unfold bind at 1.
    rewrite (parseInteger_complete z tz) by assumption.
    rewrite parseIntegers_more with (zs := zs'); try assumption.
    + reflexivity.
    + rewrite length_app in Hf.
      assert (tz <> []) by (destruct Hz; discriminate).
      destruct tz; [congruence | simpl in Hf; lia].
Qed.

End IntegerLoop.

(** *** The loop over the tiles *)

Lemma parseTiles_sound (fuel : nat) :
  forall tiles ts xs rest,
    parseTiles fuel tiles ts = Ok xs rest ->
    exists xs' body,
      xs = tiles ++ xs' /\ ts = body ++ rest /\ Grammar.tiles xs' body.
Proof.
  induction fuel as [|fuel IH]; intros tiles ts xs rest; [discriminate|].
  cbn [parseTiles]. unfold bind at 1, parseOptionalLParen, parseOptionalToken.
  destruct ts as [|t ts'] eqn:Ets.
  - unfold ret. intro H; injection H as <- <-.
    exists [], []. rewrite app_nil_r. repeat split. constructor.
  - destruct (is_tok l_paren t) eqn:Ht.
    + apply is_tok_eq in Ht; subst t.
      unfold bind at 1, with_fuel.
      destruct (parseIntegers r_paren _ true [] ts') as [dims ts2| |] eqn:Hd;
        try discriminate.
      intro H. apply IH in H as (xs'' & body' & -> & -> & Ht).
      apply parseIntegers_sound in Hd as (zs' & body & -> & -> & Hd).
      exists (Tile.Build zs' :: xs''), ((l_paren :: body ++ [r_paren]) ++ body').
      split; [|split]; [flatten; reflexivity | flatten; reflexivity |].
      constructor; [constructor|]; assumption.
    + unfold ret. intro H; injection H as <- <-.
      exists [], []. rewrite app_nil_r. repeat split. constructor.
Qed.

Lemma parseTiles_complete (xs : list Tile.t) (body : list Token) :
  Grammar.tiles xs body ->
  forall fuel tiles rest,
    no_tile_ahead rest ->
    (List.length body < fuel)%nat ->
    parseTiles fuel tiles (body ++ rest) = Ok (tiles ++ xs) rest.
Proof.
  induction 1 as [|x xs tx ts Hx Hxs IH];
    intros [|fuel] tiles rest Hr Hf; try (simpl in Hf; lia);
    cbn [parseTiles]; unfold bind at 1.
  - rewrite app_nil_l, Hr. unfold ret. rewrite app_nil_r. reflexivity.
  - destruct Hx as [zs ti Hz]. flatten.
    cbn [parseOptionalLParen parseOptionalToken is_tok].
    unfold bind at 1, with_fuel.
    rewrite (parseIntegers_complete r_paren (or_introl eq_refl) zs ti);
      [ | assumption | rewrite length_app; simpl; lia ].
    rewrite IH; [flatten; reflexivity | assumption |].
    cbn [List.length] in Hf. rewrite !length_app in Hf. simpl in Hf. lia.
Qed.

Lemma parseTiles_total (fuel : nat) :
  forall tiles ts,
    (List.length ts < fuel)%nat ->
    parseTiles fuel tiles ts <> OutOfFuel.
Proof.
  induction fuel as [|fuel IH]; intros tiles ts Hf; [lia|].
  cbn [parseTiles]. unfold bind at 1, parseOptionalLParen, parseOptionalToken.
  destruct ts as [|t ts']; [discriminate|].
  destruct (is_tok l_paren t); [|discriminate].
  unfold bind at 1, with_fuel.
  destruct (parseIntegers r_paren _ true [] ts') as [dims ts2| |] eqn:Hd.
  - apply IH.
    apply parseIntegers_sound in Hd as (zs' & body & _ & -> & _).
    cbn [List.length] in Hf. rewrite length_app in Hf. simpl in Hf. lia.
  - discriminate.
  - exfalso. revert Hd. apply parseIntegers_total. lia.
Qed.

(** *** The whole parser *)

Lemma bind_Ok {A B : Type} (p : Parser A) (k : A -> Parser B) ts b rest :
  bind p k ts = Ok b rest ->
  exists a ts', p ts = Ok a ts' /\ k a ts' = Ok b rest.
Proof.
  unfold bind. destruct (p ts) as [a ts'| |]; try discriminate.
  intro H. exists a, ts'. split; [reflexivity | assumption].
Qed.

Lemma parseToken_Ok (k : Token) ts u rest :
  parseToken k ts = Ok u rest -> ts = k :: rest.
Proof.
  unfold parseToken. destruct ts as [|t ts']; [discriminate|].
  destruct (is_tok k t) eqn:E; [|discriminate].
  apply is_tok_eq in E. intro H; injection H as <-. congruence.
Qed.

Lemma parseOptionalToken_true (k : Token) ts rest :
  parseOptionalToken k ts = Ok true rest -> ts = k :: rest.
Proof.
  unfold parseOptionalToken. destruct ts as [|t ts']; [discriminate|].
  destruct (is_tok k t) eqn:E; [|discriminate].
  apply is_tok_eq in E. intro H; injection H as <-. congruence.
Qed.

Lemma parse_sound (ts rest : list Token) (a : TiledLayoutAttr.t) :
  parse ts = Ok a rest ->
  exists body, ts = body ++ rest /\ descriptor a body.
Proof.
  unfold parse. intro H.
  apply bind_Ok in H as (u0 & ts0 & Hless & H).
  apply parseToken_Ok in Hless as ->.
  apply bind_Ok in H as (xs & ts1 & Htiles & H).
  apply parseTiles_sound in Htiles as (xs' & tx & -> & -> & Htiles).
  apply bind_Ok in H as (u1 & ts2 & Hcomma & H).
  apply parseToken_Ok in Hcomma as ->.
  apply bind_Ok in H as ([] & ts3 & Hsq & H); [|discriminate].
  apply parseOptionalToken_true in Hsq as ->.
  apply bind_Ok in H as (strides & ts4 & Hstrides & H).
  apply parseIntegers_sound in Hstrides as (zs & tz & -> & -> & Hstrides).
  apply bind_Ok in H as (u2 & ts5 & Hgt & H).
  apply parseToken_Ok in Hgt as ->.
  injection H as <- <-.
  exists (less :: tx ++ comma :: l_square :: tz ++ [r_square; greater]).
  split; [flatten; reflexivity | now constructor].
Qed.

Lemma parse_complete (a : TiledLayoutAttr.t) (body rest : list Token) :
  descriptor a body -> parse (body ++ rest) = Ok a rest.
Proof.
  intros [xs strides tx tz Hx Hz]. unfold parse. flatten.
  unfold bind at 1. cbn [parseLess parseToken is_tok].
  unfold bind at 1, with_fuel.
  rewrite (parseTiles_complete xs tx Hx);
    [ | reflexivity | rewrite length_app; simpl; lia ].
  unfold bind at 1. cbn [parseComma parseToken is_tok].
  unfold bind at 1. cbn [parseOptionalLSquare parseOptionalToken is_tok].
  unfold bind at 1.
  rewrite (parseIntegers_complete r_square (or_intror eq_refl) strides tz);
    [ | assumption | rewrite length_app; simpl; lia ].
  reflexivity.
Qed.

Lemma parse_total (ts : list Token) : parse ts <> OutOfFuel.
Proof.
  unfold parse, bind, with_fuel.
  destruct (parseLess ts) as [u ts0| |] eqn:H0; try discriminate.
  - destruct (parseTiles _ [] ts0) as [xs ts1| |] eqn:H1; try discriminate.
    + destruct (parseComma ts1) as [u1 ts2| |] eqn:H2; try discriminate.
      * destruct (parseOptionalLSquare ts2) as [[] ts3| |] eqn:H3;
          try discriminate.
        -- destruct (parseIntegers r_square _ true [] ts3)
             as [zs ts4| |] eqn:H4; try discriminate.
           ++ destruct (parseGreater ts4) as [u2 ts5| |] eqn:H5;
                try discriminate.
              unfold parseGreater, parseToken in H5.
              destruct ts4 as [|t ?]; [discriminate|].
              destruct (is_tok greater t); discriminate.
           ++ exfalso. revert H4. apply parseIntegers_total. lia.
        -- unfold parseOptionalLSquare, parseOptionalToken in H3.
           destruct ts2 as [|t ?]; [discriminate|].
           destruct (is_tok l_square t); discriminate.
      * unfold parseComma, parseToken in H2.
        destruct ts1 as [|t ?]; [discriminate|].
        destruct (is_tok comma t); discriminate.
    + exfalso. revert H1. apply parseTiles_total. lia.
  - unfold parseLess, parseToken in H0.
    destruct ts as [|t ?]; [discriminate|].
    destruct (is_tok less t); discriminate.
Qed.
End ParseProofs.

(** ** Round trip and rejection *)

Module TiledLayoutProofs.
Import Asm Grammar TiledLayoutAttr LexProofs ParseProofs.

Lemma print_int_ok (z : Z) : Int64.in_range z = true -> int z (print_int z).
Proof.
  intro H. unfold print_int. destruct (z <? 0) eqn:E.
  - apply Z.ltb_lt in E.
    replace z with (- Z.of_N (Z.to_N (- z))) at 1 by (rewrite Z2N.id; lia).
    constructor. rewrite Z2N.id by lia. now rewrite Z.opp_involutive.
  - apply Z.ltb_ge in E.
    replace z with (Z.of_N (Z.to_N z)) at 1 by (rewrite Z2N.id; lia).
    constructor. now rewrite Z2N.id by lia.
Qed.

Create HintDb grammar.
#[local] Hint Constructors int more_ints int_list tile tiles descriptor
  : grammar.
#[local] Hint Resolve print_int_ok : grammar.

Lemma print_more_ints_ok (zs : list Z) :
  Forall (fun z => Int64.in_range z = true) zs ->
  more_ints zs (print_more_ints zs).
Proof.
  induction 1 as [|z zs Hz _ IH]; cbn [print_more_ints]; auto with grammar.
Qed.

#[local] Hint Resolve print_more_ints_ok : grammar.

Lemma print_int_list_ok (zs : list Z) :
  Forall (fun z => Int64.in_range z = true) zs ->
  int_list zs (print_int_list zs).
Proof.
  intros [|z zs' Hz Hzs]; cbn [print_int_list]; auto with grammar.
Qed.

#[local] Hint Resolve print_int_list_ok : grammar.

Lemma print_tiles_ok (xs : list Tile.t) :
  Forall (fun x => Forall (fun z => Int64.in_range z = true)
                          (Tile.dimensions x)) xs ->
  tiles xs (flat_map print_tile xs).
Proof.
  induction 1 as [|[zs] xs Hx _ IH]; cbn [flat_map]; auto with grammar.
  unfold print_tile. auto with grammar.
Qed.

#[local] Hint Resolve print_tiles_ok : grammar.

Lemma print_descriptor_ok (a : TiledLayoutAttr.t) :
  in_range a -> descriptor a (print_descriptor a).
Proof.
  destruct a as [xs strides]. intros [Hx Hs]. unfold print_descriptor.
  auto with grammar.
Qed.

Lemma int_in_range (z : Z) (tz : list Token) :
  int z tz -> Int64.in_range z = true.
Proof. now intros [n H|n H]. Qed.

Lemma more_ints_in_range (zs : list Z) (ts : list Token) :
  more_ints zs ts -> Forall (fun z => Int64.in_range z = true) zs.
Proof. induction 1; constructor; eauto using int_in_range. Qed.

Lemma int_list_in_range (zs : list Z) (ts : list Token) :
  int_list zs ts -> Forall (fun z => Int64.in_range z = true) zs.
Proof.
  intros [|]; constructor; eauto using int_in_range, more_ints_in_range.
Qed.

Lemma descriptor_in_range (a : TiledLayoutAttr.t) (body : list Token) :
  descriptor a body -> in_range a.
Proof.
  intros [xs strides tx tz Hx Hz]. split; cbn.
  - induction Hx as [|x xs tx ts [zs ti Hi] _ IH]; constructor; [|exact IH].
    cbn. eauto using int_list_in_range.
  - eauto using int_list_in_range.
Qed.

(** Printing a descriptor whose integers fit an [int64_t] and parsing
    the text gives the descriptor back, and leaves nothing unread. *)
Lemma parse_print (a : TiledLayoutAttr.t) :
  in_range a -> parse (tokens (print a)) = Ok a [].
Proof.
  intro H. rewrite tokens_print.
  rewrite <- (app_nil_r (print_descriptor a)).
  apply parse_complete, print_descriptor_ok, H.
Qed.

Lemma parseText_Some (s : string) (a : TiledLayoutAttr.t) :
  parseText s = Some a -> exists rest, parse (tokens s) = Ok a rest.
Proof.
  unfold parseText. destruct (parse (tokens s)) as [a' rest| |];
    try discriminate.
  intro H; injection H as ->. now exists rest.
Qed.

(** What [parse] accepts starts with a descriptor of the grammar. *)
Lemma well_formed_parses (ts : list Token) :
  well_formed ts -> exists a rest, parse ts = Ok a rest.
Proof.
  intros (a & body & rest & -> & H). exists a, rest.
  now apply parse_complete.
Qed.

(** Section 8, property 6 of the specification. *)
Example concrete_scenario :
  parseText "<(8,128)(1,128),[1,8]>"
  = Some (get [Tile.Build [8; 128]; Tile.Build [1; 128]] [1; 8])
  /\ print (get [Tile.Build [8; 128]; Tile.Build [1; 128]] [1; 8])
     = "<(8,128)(1,128),[1,8]>"%string.
Proof. split; reflexivity. Qed.

(** What [parse] returns has integers that fit an [int64_t]. *)
Lemma parsed_in_range (s : string) (D : TiledLayoutAttr.t) :
  parseText s = Some D -> in_range D.
Proof.
  intro H. apply parseText_Some in H as (rest & H).
  apply parse_sound in H as (body & _ & H).
  now apply descriptor_in_range in H.
Qed.

(** C1. Round trip: for every descriptor whose integers fit an
    [int64_t] (these are the descriptors a text can denote, and among
    them every descriptor that a successful parse produced, by
    [parsed_in_range]), parsing the printed text succeeds, gives the
    descriptor back and leaves no token unread. *)
Theorem print_parse_round_trip (D : TiledLayoutAttr.t) :
  in_range D ->
  parse (tokens (print D)) = Ok D [] /\ parseText (print D) = Some D.
Proof.
  intro H. unfold parseText. rewrite (parse_print D H). now split.
Qed.

Lemma print_parse_round_trip_witness :
  in_range (get [Tile.Build [8; 128]; Tile.Build [1; 128]] [1; -8])
  /\ parse (tokens (print (get [Tile.Build [8; 128]; Tile.Build [1; 128]]
                               [1; -8])))
     = Ok (get [Tile.Build [8; 128]; Tile.Build [1; 128]] [1; -8]) []
  /\ parseText (print (get [Tile.Build [8; 128]; Tile.Build [1; 128]] [1; -8]))
     = Some (get [Tile.Build [8; 128]; Tile.Build [1; 128]] [1; -8]).
Proof.
  assert (H : in_range (get [Tile.Build [8; 128]; Tile.Build [1; 128]]
                            [1; -8]))
    by (split; repeat constructor).
  split; [exact H|].
  exact (print_parse_round_trip
           (get [Tile.Build [8; 128]; Tile.Build [1; 128]] [1; -8]) H).
Defined.

(** The same for a descriptor given as the result of a successful
    parse. *)
Theorem parse_print_round_trip (s : string) (D : TiledLayoutAttr.t) :
  parseText s = Some D -> parseText (print D) = Some D.
Proof.
  intro H. apply parseText_Some in H as (rest & H).
  apply parse_sound in H as (body & _ & H).
  apply descriptor_in_range in H.
  unfold parseText. now rewrite parse_print.
Qed.

Lemma parse_print_round_trip_witness :
  parseText "<(8,128)(1,128),[1,-8]>"
  = Some (get [Tile.Build [8; 128]; Tile.Build [1; 128]] [1; -8])
  /\ parseText (print (get [Tile.Build [8; 128]; Tile.Build [1; 128]] [1; -8]))
     = Some (get [Tile.Build [8; 128]; Tile.Build [1; 128]] [1; -8]).
Proof.
  split; [reflexivity|].
  apply (parse_print_round_trip "<(8,128)(1,128),[1,-8]>"). reflexivity.
Defined.

(** C8. Malformed text is rejected: when the tokens of a text do not
    start with a descriptor of the grammar (a comma, a bracket, a
    parenthesis or the closing angle bracket is missing, or something
    else stands where an integer is expected), [parse] fails, and the
    caller gets no descriptor at all. *)
Theorem parse_rejects_malformed (s : string) :
  ~ well_formed (tokens s) ->
  parse (tokens s) = Fail /\ parseText s = None.
Proof.
  intro H. unfold parseText.
  destruct (parse (tokens s)) as [a rest| |] eqn:E.
  - exfalso. apply H. apply parse_sound in E as (body & E & Hd).
    now exists a, body, rest.
  - now split.
  - now apply parse_total in E.
Qed.

Lemma parse_rejects_malformed_witness :
  (parse (tokens "<(8,128)[1,8]>") = Fail
   /\ parseText "<(8,128)[1,8]>" = None)
  /\ (parse (tokens "<(8,128,[1,8]>") = Fail
      /\ parseText "<(8,128,[1,8]>" = None)
  /\ (parse (tokens "<(8,x),[1,8]>") = Fail
      /\ parseText "<(8,x),[1,8]>" = None)
  /\ (parse (tokens "<(8,128),[1,8]") = Fail
      /\ parseText "<(8,128),[1,8]" = None).
Proof.
  split; [|split; [|split]];
    apply parse_rejects_malformed;
    intro H; apply well_formed_parses in H as (a & rest & H);
    vm_compute in H; discriminate H.
Defined.
End TiledLayoutProofs.

(** ** Affine maps *)

Module AffineProofs.
Import Affine.

Lemma getNumResults_compose (f g : AffineMap) :
  getNumResults (compose f g) = getNumResults f.
Proof. unfold compose, getNumResults; cbn. apply length_map. Qed.

Lemma getNumDims_compose (f g : AffineMap) :
  getNumDims (compose f g) = getNumDims g.
Proof. reflexivity. Qed.

Lemma getNumSymbols_compose (f g : AffineMap) :
  getNumSymbols (compose f g) = (getNumSymbols f + getNumSymbols g)%nat.
Proof. reflexivity. Qed.

Lemma nth_dims_identity (n p : nat) :
  nth p (map AffineDimExpr (seq 0 n)) (AffineDimExpr p) = AffineDimExpr p.
Proof.
  destruct (Nat.lt_ge_cases p n) as [H|H].
  - rewrite (map_nth AffineDimExpr), seq_nth by assumption. reflexivity.
  - apply nth_overflow. now rewrite length_map, length_seq.
Qed.

Lemma replace_identity (n : nat) (e : AffineExpr) :
  replaceDimsAndSymbols (map AffineDimExpr (seq 0 n)) [] e = e.
Proof.
  induction e as [p|p|c|k l IHl r IHr]; cbn [replaceDimsAndSymbols].
  - apply nth_dims_identity.
  - now destruct p.
  - reflexivity.
  - now rewrite IHl, IHr.
Qed.

Lemma evalExpr_replace (dims syms : list Z) (by_ : list AffineExpr)
      (e : AffineExpr) :
  dims_below (List.length by_) e ->
  evalExpr dims syms (replaceDimsAndSymbols by_ [] e)
  = evalExpr (map (evalExpr dims syms) by_) syms e.
Proof.
  induction e as [p|p|c|k l IHl r IHr]; cbn [replaceDimsAndSymbols dims_below].
  - intro H. cbn [evalExpr].
    rewrite (nth_indep _ 0 (evalExpr dims syms (AffineDimExpr p)))
      by now rewrite length_map.
    now rewrite map_nth.
  - now destruct p.
  - reflexivity.
  - intros [Hl Hr]. cbn [evalExpr]. now rewrite IHl, IHr.
Qed.

(** The meaning of [f.compose(g)]: [g] first, then [f] on its results. *)
Lemma eval_compose (f g : AffineMap) (dims syms : list Z) :
  getNumSymbols g = 0%nat ->
  Forall (dims_below (getNumResults g)) (getResults f) ->
  eval (compose f g) dims syms = eval f (eval g dims syms) syms.
Proof.
  intros Hg Hf. unfold compose, eval. cbn [getResults]. rewrite Hg.
  cbn [seq map].
  rewrite (map_ext _ (fun e => e) (replace_identity (getNumDims g))), map_id.
  rewrite map_map. apply map_ext_in.
  intros e He. apply evalExpr_replace.
  rewrite Forall_forall in Hf. now apply Hf.
Qed.
End AffineProofs.

Module TiledLayoutMapProofs.
Import Affine TiledLayoutMap AffineProofs.

Lemma length_push_tiled (f : nat -> Z -> AffineExpr) (dimensions : list Z) :
  forall i, List.length (push_tiled f i dimensions) = List.length dimensions.
Proof. induction dimensions as [|d ds IH]; intro i; cbn; [|rewrite IH]; reflexivity. Qed.

Lemma length_tile_exprs (u : nat) (dimensions : list Z) :
  List.length (tile_exprs u dimensions)
  = (u + 2 * List.length dimensions)%nat.
Proof.
  unfold tile_exprs.
  rewrite !length_app, length_map, length_seq, !length_push_tiled. lia.
Qed.

Lemma push_tiled_below (u n : nat) (op : AffineExpr -> Z -> AffineExpr)
      (dimensions : list Z) :
  (forall e d, dims_below n e -> dims_below n (op e d)) ->
  forall i, (u + i + List.length dimensions <= n)%nat ->
  Forall (dims_below n)
         (push_tiled (fun i d => op (getAffineDimExpr (u + i)) d) i dimensions).
Proof.
  intro Hop. induction dimensions as [|d ds IH]; intros i Hi; cbn [push_tiled].
  - constructor.
  - cbn [List.length] in Hi. constructor.
    + apply Hop. cbn. lia.
    + apply IH. lia.
Qed.

Lemma tile_exprs_below (u : nat) (dimensions : list Z) :
  Forall (dims_below (u + List.length dimensions))
         (tile_exprs u dimensions).
Proof.
  unfold tile_exprs. rewrite !Forall_app. repeat split.
  - rewrite Forall_map, Forall_forall. intros p Hp.
    apply in_seq in Hp. cbn. lia.
  - apply push_tiled_below; [|lia]. intros e d He. cbn. tauto.
  - apply push_tiled_below; [|lia]. intros e d He. cbn. tauto.
Qed.

Lemma step_Returns (map map' : AffineMap) (tile : Tile.t) :
  step map tile = Returns map' ->
  0 <= untiled_dims map tile
  /\ map' = compose (tile_map map tile) map.
Proof.
  unfold step. destruct (untiled_dims map tile <? 0) eqn:E; [discriminate|].
  apply Z.ltb_ge in E. intro H; injection H as <-. now split.
Qed.

Lemma step_Fatal (map : AffineMap) (tile : Tile.t) :
  step map tile = Fatal <-> untiled_dims map tile < 0.
Proof.
  unfold step. destruct (untiled_dims map tile <? 0) eqn:E.
  - apply Z.ltb_lt in E. tauto.
  - apply Z.ltb_ge in E. split; [discriminate | lia].
Qed.

Lemma step_shape (map map' : AffineMap) (tile : Tile.t) :
  step map tile = Returns map' ->
  getNumResults map'
  = (getNumResults map + List.length (Tile.dimensions tile))%nat
  /\ getNumDims map' = getNumDims map
  /\ getNumSymbols map' = getNumSymbols map.
Proof.
  intro H. apply step_Returns in H as [Hu ->].
  rewrite getNumResults_compose, getNumDims_compose, getNumSymbols_compose.
  unfold tile_map, getNumResults at 1. cbn [getResults getNumSymbols].
  rewrite length_tile_exprs. unfold untiled_dims in *.
  repeat split. lia.
Qed.

Lemma loop_shape (tiles : list Tile.t) : forall map map',
  loop map tiles = Returns map' ->
  getNumResults map' = (getNumResults map + sum_of_ranks tiles)%nat
  /\ getNumDims map' = getNumDims map
  /\ getNumSymbols map' = getNumSymbols map.
Proof.
  induction tiles as [|tile tiles IH]; intros map map'; cbn [loop].
  - intro H; injection H as <-. unfold sum_of_ranks; cbn. repeat split. lia.
  - destruct (step map tile) as [|map1] eqn:E; [discriminate|].
    intro H. apply IH in H as (H1 & H2 & H3).
    apply step_shape in E as (E1 & E2 & E3).
    unfold sum_of_ranks in *. cbn [List.map list_sum].
    change (list_sum (?a :: ?l)) with (a + list_sum l)%nat.
    repeat split; [lia | congruence | congruence].
Qed.

Lemma loop_app (pre post : list Tile.t) : forall map,
  loop map (pre ++ post)
  = match loop map pre with
    | Fatal => Fatal
    | Returns map' => loop map' post
    end.
Proof.
  induction pre as [|tile pre IH]; intro map; cbn [loop Datatypes.app]; [reflexivity|].
  destruct (step map tile); [reflexivity | apply IH].
Qed.

Lemma loop_Fatal (tiles : list Tile.t) : forall map,
  loop map tiles = Fatal <->
  exists pre tile post map',
    tiles = pre ++ tile :: post
    /\ loop map pre = Returns map'
    /\ untiled_dims map' tile < 0.
Proof.
  induction tiles as [|tile tiles IH]; intro map; cbn [loop]; split.
  - discriminate.
  - intros (pre & t & post & map' & H & _). now destruct pre.
  - destruct (step map tile) as [|map1] eqn:E.
    + intros _. exists [], tile, tiles, map. repeat split.
      now apply step_Fatal.
    + intro H. apply IH in H as (pre & t & post & map' & -> & H1 & H2).
      exists (tile :: pre), t, post, map'. repeat split; [|assumption].
      cbn [loop]. now rewrite E.
  - intros (pre & t & post & map' & H & H1 & H2).
    destruct pre as [|t0 pre]; cbn [Datatypes.app] in H; injection H as -> ->.
    + cbn [loop] in H1. injection H1 as <-.
      apply step_Fatal in H2. now rewrite H2.
    + cbn [loop] in H1. destruct (step map t0) as [|map1]; [reflexivity|].
      apply IH. now exists pre, t, post, map'.
Qed.

Lemma getNumResults_identity (n : nat) :
  getNumResults (getMultiDimIdentityMap n) = n.
Proof.
  unfold getNumResults, getMultiDimIdentityMap. cbn [getResults].
  now rewrite length_map, length_seq.
Qed.

Lemma tile_map_below (map : AffineMap) (tile : Tile.t) :
  0 <= untiled_dims map tile ->
  Forall (dims_below (getNumResults map)) (getResults (tile_map map tile)).
Proof.
  intro H. unfold tile_map. cbn [getResults].
  pose proof (tile_exprs_below (Z.to_nat (untiled_dims map tile))
                               (Tile.dimensions tile)) as Hb.
  replace (Z.to_nat (untiled_dims map tile)
           + List.length (Tile.dimensions tile))%nat
    with (getNumResults map) in Hb
    by (unfold untiled_dims in *; lia).
  exact Hb.
Qed.

(** C3, as the code has it. For every tile that [getAffineMap]
    processes, the map after the tile is the tile's own mapping
    composed onto the map accumulated before it: the accumulated map is
    applied first, and its results are the inputs of the tile's
    mapping. *)
Theorem accumulated_map_applied_first
        (strides : list Z) (pre : list Tile.t) (tile : Tile.t)
        (before after : AffineMap) :
  getAffineMap (TiledLayoutAttr.get pre strides) = Returns before ->
  getAffineMap (TiledLayoutAttr.get (pre ++ [tile]) strides) = Returns after ->
  after = compose (tile_map before tile) before
  /\ forall dims syms,
      eval after dims syms
      = eval (tile_map before tile) (eval before dims syms) syms.
Proof.
  unfold getAffineMap. cbn [TiledLayoutAttr.getTiles TiledLayoutAttr.getTileStrides].
  intros Hpre Hall. rewrite loop_app, Hpre in Hall. cbn [loop] in Hall.
  destruct (step before tile) as [|m1] eqn:E; [discriminate|].
  injection Hall as ->.
  apply step_Returns in E as [Hu ->]. split; [reflexivity|].
  intros dims syms. apply eval_compose.
  - apply loop_shape in Hpre as (_ & _ & ->). reflexivity.
  - now apply tile_map_below.
Qed.

Lemma accumulated_map_applied_first_witness :
  exists before after,
    getAffineMap (TiledLayoutAttr.get [tile_8_128] [1; 8]) = Returns before
    /\ getAffineMap (TiledLayoutAttr.get [tile_8_128; tile_1_128] [1; 8])
       = Returns after
    /\ after = compose (tile_map before tile_1_128) before
    /\ forall dims syms,
        eval after dims syms
        = eval (tile_map before tile_1_128) (eval before dims syms) syms.
Proof.
  eexists; eexists.
  split; [reflexivity|]. split; [reflexivity|].
  apply (accumulated_map_applied_first [1; 8] [tile_8_128] tile_1_128);
    reflexivity.
Defined.

(** C3, as the specification words it, fails: with the tiles [(8,128)]
    and [(1,128)] and two strides, the map after the second tile is not
    the map accumulated before it applied to the results of the
    second tile's mapping. *)
Lemma new_mapping_first_counterexample :
  exists before after,
    getAffineMap (TiledLayoutAttr.get [tile_8_128] [1; 8]) = Returns before
    /\ getAffineMap (TiledLayoutAttr.get [tile_8_128; tile_1_128] [1; 8])
       = Returns after
    /\ eval after [9; 300] [] = [1; 2; 1; 0; 0; 44]
    /\ eval before (eval (tile_map before tile_1_128) [9; 300] []) []
       = [1; 2; 1; 44]
    /\ eval after [9; 300] []
       <> eval before (eval (tile_map before tile_1_128) [9; 300] []) [].
Proof.
  eexists; eexists.
  split; [reflexivity|]. split; [reflexivity|].
  split; [reflexivity|]. split; [reflexivity|].
  vm_compute. discriminate.
Qed.

(** C4, as the code has it. When [getAffineMap] returns, the map takes
    as many inputs as there are strides, and has as many results as
    there are strides plus the sum of the ranks of the tiles. *)
Theorem getAffineMap_arity (a : TiledLayoutAttr.t) (map : AffineMap) :
  getAffineMap a = Returns map ->
  getNumResults map
  = (List.length (TiledLayoutAttr.getTileStrides a)
     + sum_of_ranks (TiledLayoutAttr.getTiles a))%nat
  /\ getNumDims map = List.length (TiledLayoutAttr.getTileStrides a).
Proof.
  unfold getAffineMap. intro H.
  apply loop_shape in H as (H1 & H2 & _).
  rewrite getNumResults_identity in H1. now split.
Qed.

Lemma getAffineMap_arity_witness :
  exists map,
    getAffineMap (TiledLayoutAttr.get [tile_8_128; tile_1_128] [1; 8])
    = Returns map
    /\ getNumResults map = 6%nat
    /\ getNumDims map = 2%nat.
Proof.
  eexists. split; [reflexivity|].
  apply (getAffineMap_arity
           (TiledLayoutAttr.get [tile_8_128; tile_1_128] [1; 8])).
  reflexivity.
Defined.

(** C4, as the specification words it, fails: with the tile [(8,128)]
    and the strides [[1,8]] no round of the loop is fatal, and the map
    has four results, not two. *)
Lemma output_arity_counterexample :
  exists map,
    getAffineMap (TiledLayoutAttr.get [tile_8_128] [1; 8]) = Returns map
    /\ getNumResults map = 4%nat
    /\ getNumResults map <> List.length [1; 8].
Proof.
  eexists. split; [reflexivity|]. split; [reflexivity|].
  vm_compute. discriminate.
Qed.

(** C6. [getAffineMap] takes the fatal path exactly when, at some tile,
    the number of results of the map accumulated so far minus the rank
    of the tile is negative; so a descriptor that keeps this number
    non-negative at every tile never takes it. *)
Theorem getAffineMap_fatal_iff (a : TiledLayoutAttr.t) :
  getAffineMap a = Fatal <->
  exists pre tile post map,
    TiledLayoutAttr.getTiles a = pre ++ tile :: post
    /\ getAffineMap (TiledLayoutAttr.get pre (TiledLayoutAttr.getTileStrides a))
       = Returns map
    /\ Z.of_nat (getNumResults map)
       - Z.of_nat (List.length (Tile.dimensions tile)) < 0.
Proof. unfold getAffineMap. apply loop_Fatal. Qed.

Example getAffineMap_fatal_example :
  getAffineMap (TiledLayoutAttr.get [Tile.Build [8; 128; 2]] [1; 8]) = Fatal.
Proof. reflexivity. Qed.
End TiledLayoutMapProofs.

(** ** The divisibility prover on trees *)

Module ExprProofs.
Import Expr.

Lemma rem_zero_divide (a d : Z) : 0 < d -> (Z.rem a d =? 0) = true -> (d | a).
Proof.
  intros Hd H. apply Z.eqb_eq in H. apply Z.rem_divide; [lia | exact H].
Qed.

(** The fuels the source computes from a positive fuel below the
    largest [int64_t] are [int64_t]s, as is the sum it halves. *)
Lemma fuel_stays_in_range (fuel : Z) :
  0 < fuel < Int64.max_signed ->
  Int64.in_range (Z.quot fuel 2) = true
  /\ Int64.in_range (fuel - 1) = true
  /\ Int64.in_range (fuel + 1) = true
  /\ Int64.in_range (Z.quot (fuel + 1) 2) = true.
Proof.
  intros [Hpos Hmax].
  assert (H1 : 0 <= Z.quot fuel 2 <= fuel).
  { split; [apply Z.quot_pos; lia | apply Z.quot_le_upper_bound; lia]. }
  assert (H2 : 0 <= Z.quot (fuel + 1) 2 <= fuel + 1).
  { split; [apply Z.quot_pos; lia | apply Z.quot_le_upper_bound; lia]. }
  unfold Int64.in_range, Int64.min_signed, Int64.max_signed in *.
  change (2 ^ 63) with 9223372036854775808 in *.
  repeat split; apply andb_true_iff; split; apply Z.leb_le; lia.
Qed.

Lemma isGuaranteedDivisible_positive_fuel (value : Value) (divisor fuel : Z) :
  isGuaranteedDivisible value divisor fuel = true -> 0 < fuel.
Proof.
  destruct value; cbn [isGuaranteedDivisible];
    destruct (fuel <=? 0) eqn:E; try discriminate;
    intros _; apply Z.leb_gt in E; exact E.
Qed.

(** C2. Soundness: when the prover answers true for a positive
    divisor, the value is a multiple of the divisor under every
    assignment of integers to the values the prover does not look
    into, provided the multiple-assumption annotations are honest. *)
Theorem isGuaranteedDivisible_sound
        (env : nat -> Z) (value : Value) (divisor fuel : Z) :
  0 < divisor ->
  honest env value ->
  isGuaranteedDivisible value divisor fuel = true ->
  (divisor | denote env value).
Proof.
  intro Hd. revert fuel.
  induction value as [operand IH multiple | lhs IHl rhs IHr | [c|tag]
                     | operand IH | id];
    intros fuel Hh; cbn [isGuaranteedDivisible denote honest] in *;
    destruct (fuel <=? 0); try discriminate.
  - intro H. destruct Hh as [Hm _].
    apply Z.divide_trans with multiple; [|exact Hm].
    now apply rem_zero_divide.
  - intro H. destruct Hh as [Hl Hr].
    apply orb_true_iff in H as [H|H].
    + apply Z.divide_mul_r. eapply IHr; eassumption.
    + apply Z.divide_mul_l. eapply IHl; eassumption.
  - now apply rem_zero_divide.
  - intro H. eapply IH; eassumption.
Qed.

Lemma isGuaranteedDivisible_sound_witness :
  0 < 3
  /\ honest (fun _ => 5) (six_times (Opaque 0))
  /\ isGuaranteedDivisible (six_times (Opaque 0)) 3 1 = true
  /\ (3 | denote (fun _ => 5) (six_times (Opaque 0))).
Proof.
  assert (H0 : 0 < 3) by lia.
  assert (H1 : honest (fun _ => 5) (six_times (Opaque 0))) by (simpl; tauto).
  assert (H2 : isGuaranteedDivisible (six_times (Opaque 0)) 3 1 = true)
    by reflexivity.
  split; [exact H0 | split; [exact H1 | split; [exact H2 |]]].
  exact (isGuaranteedDivisible_sound (fun _ => 5) (six_times (Opaque 0)) 3 1
                                     H0 H1 H2).
Defined.

(** Section 8, property 4: [constant(6) * x] is proved divisible by 1,
    2, 3 and 6 with any fuel of at least 1, and never by 4 when [x] is
    opaque. *)
Lemma six_times_divisors (id : nat) (fuel : Z) :
  1 <= fuel ->
  isGuaranteedDivisible (six_times (Opaque id)) 1 fuel = true
  /\ isGuaranteedDivisible (six_times (Opaque id)) 2 fuel = true
  /\ isGuaranteedDivisible (six_times (Opaque id)) 3 fuel = true
  /\ isGuaranteedDivisible (six_times (Opaque id)) 6 fuel = true
  /\ isGuaranteedDivisible (six_times (Opaque id)) 4 fuel = false.
Proof.
  intro H. unfold six_times. cbn [isGuaranteedDivisible].
  assert (E : (fuel <=? 0) = false) by (apply Z.leb_gt; lia).
  assert (E' : (Z.quot (fuel + 1) 2 <=? 0) = false).
  { apply Z.leb_gt. apply Z.quot_str_pos; lia. }
  rewrite E, E'. destruct (fuel ÷ 2 <=? 0); repeat split; reflexivity.
Qed.

(** C5. Fuel monotonicity: more fuel never turns a proved
    divisibility into an unproved one. *)
Theorem isGuaranteedDivisible_fuel_monotone
        (value : Value) (divisor fuel1 fuel2 : Z) :
  0 < divisor ->
  fuel1 <= fuel2 ->
  isGuaranteedDivisible value divisor fuel1 = true ->
  isGuaranteedDivisible value divisor fuel2 = true.
Proof.
  intros _. revert fuel1 fuel2.
  induction value as [operand IH multiple | lhs IHl rhs IHr | [c|tag]
                     | operand IH | id];
    intros fuel1 fuel2 Hle H;
    pose proof (isGuaranteedDivisible_positive_fuel _ _ _ H) as Hpos;
    cbn [isGuaranteedDivisible] in *;
    destruct (fuel1 <=? 0) eqn:E1; try discriminate;
    replace (fuel2 <=? 0) with false by (symmetry; apply Z.leb_gt; lia).
  - exact H.
  - apply orb_true_iff in H as [H|H]; apply orb_true_iff; [left | right].
    + apply (IHr (Z.quot fuel1 2)); [|exact H].
      apply Z.quot_le_mono; lia.
    + apply (IHl (Z.quot (fuel1 + 1) 2)); [|exact H].
      apply Z.quot_le_mono; lia.
  - exact H.
  - apply (IH (fuel1 - 1)); [lia | exact H].
Qed.

Lemma isGuaranteedDivisible_fuel_monotone_witness :
  0 < 3 /\ 1 <= 8
  /\ isGuaranteedDivisible (six_times (Opaque 0)) 3 1 = true
  /\ isGuaranteedDivisible (six_times (Opaque 0)) 3 8 = true.
Proof.
  assert (H0 : 0 < 3) by lia.
  assert (H1 : 1 <= 8) by lia.
  assert (H2 : isGuaranteedDivisible (six_times (Opaque 0)) 3 1 = true)
    by reflexivity.
  split; [exact H0 | split; [exact H1 | split; [exact H2 |]]].
  exact (isGuaranteedDivisible_fuel_monotone (six_times (Opaque 0)) 3 1 8
                                             H0 H1 H2).
Defined.

(** C7, as the specification words it, fails: with fuel 4 the prover
    does not prove the scenario's value divisible by 12. *)
Lemma scenario_counterexample :
  isGuaranteedDivisible (scenario (Opaque 0)) 12 4 = false
  /\ ~ (isGuaranteedDivisible (scenario (Opaque 0)) 12 4 = true
        /\ isGuaranteedDivisible (scenario (Opaque 0)) 24 4 = false).
Proof.
  split; [reflexivity|].
  intros [H _]. vm_compute in H. discriminate H.
Qed.

(** C7, as the code has it. The prover looks at one factor at a time
    and never multiplies the constants 3 and 4: with fuel 4 it proves
    the scenario's value divisible by 3 and by 4, and neither by 12 nor
    by 24, whatever [y] is. *)
Theorem scenario_verdicts (y : Value) :
  isGuaranteedDivisible (scenario y) 12 4 = false
  /\ isGuaranteedDivisible (scenario y) 24 4 = false
  /\ isGuaranteedDivisible (scenario y) 3 4 = true
  /\ isGuaranteedDivisible (scenario y) 4 4 = true.
Proof.
  unfold scenario. cbn [isGuaranteedDivisible].
  repeat split; destruct y; reflexivity.
Qed.

(** C10. A constant whose value is not an integer attribute is never
    proved divisible, whatever the divisor and the fuel. *)
Theorem non_integer_constant_not_proven (tag : nat) (divisor fuel : Z) :
  isGuaranteedDivisible (ConstantOp (OtherAttr tag)) divisor fuel = false.
Proof. cbn [isGuaranteedDivisible]. now destruct (fuel <=? 0). Qed.
End ExprProofs.

(** ** The divisibility prover on graphs *)

Module GraphProofs.
Import Graph.

(** More gas does not change an answer. *)
Lemma isGuaranteedDivisible_gas_monotone (g : Graph.t) (gas : nat) :
  forall gas' value divisor fuel b,
    (gas <= gas')%nat ->
    isGuaranteedDivisible g gas value divisor fuel = Some b ->
    isGuaranteedDivisible g gas' value divisor fuel = Some b.
Proof.
  induction gas as [|gas IH]; intros gas' value divisor fuel b Hle;
    [discriminate|].
  destruct gas' as [|gas']; [lia|].
  cbn [isGuaranteedDivisible].
  destruct (fuel <=? 0); [exact (fun H => H)|].
  destruct (getDefiningOp g value) as [[x m|lhs rhs|[c|tag]|x|xs]|];
    try exact (fun H => H).
  - destruct (isGuaranteedDivisible g gas rhs divisor (Z.quot fuel 2))
      as [[|]|] eqn:Er; try discriminate.
    + rewrite (IH gas' _ _ _ _ ltac:(lia) Er). exact (fun H => H).
    + rewrite (IH gas' _ _ _ _ ltac:(lia) Er). apply IH. lia.
  - apply IH. lia.
Qed.

Lemma operand_edge_intro (g : Graph.t) (u v : nat) (op : Operation) :
  getDefiningOp g v = Some op -> In u (getOperands op) -> operand_edge g u v.
Proof. intros H1 H2. now exists op. Qed.

(** C9, as the code has it. Termination: on a graph without cycles the
    prover answers for every value, divisor and fuel, after finitely
    many recursive calls. The recursion follows operand edges only, and
    ends because they cannot be followed for ever. *)
Theorem isGuaranteedDivisible_terminates (g : Graph.t) :
  acyclic g ->
  forall value divisor fuel,
  exists gas b,
    forall gas', (gas <= gas')%nat ->
      isGuaranteedDivisible g gas' value divisor fuel = Some b.
Proof.
  intros Hwf value.
  induction (Hwf value) as [value _ IH]. intros divisor fuel.
  assert (Hcall : forall operand fuel',
             (exists op, getDefiningOp g value = Some op
                         /\ In operand (getOperands op)) ->
             exists gas b,
               isGuaranteedDivisible g gas operand divisor fuel' = Some b).
  { intros operand fuel' He.
    destruct (IH operand He divisor fuel') as (gas & b & H).
    exists gas, b. apply H. lia. }
  assert (Hone : forall b,
             isGuaranteedDivisible g 1 value divisor fuel = Some b ->
             exists gas b, forall gas', (gas <= gas')%nat ->
               isGuaranteedDivisible g gas' value divisor fuel = Some b).
  { intros b H. exists 1%nat, b. intros gas' Hle.
    now apply (isGuaranteedDivisible_gas_monotone g 1). }
  destruct (fuel <=? 0) eqn:Ef;
    [apply (Hone false); cbn; now rewrite Ef|].
  destruct (getDefiningOp g value) as [[x m|lhs rhs|[c|tag]|x|xs]|] eqn:Eop;
    try (eapply Hone; cbn; rewrite Ef, Eop; reflexivity).
  - (* arith.muli *)
    destruct (Hcall rhs (Z.quot fuel 2)) as (gr & br & Hr).
    { eexists; split; [reflexivity | cbn; tauto]. }
    destruct (Hcall lhs (Z.quot (fuel + 1) 2)) as (gl & bl & Hl).
    { eexists; split; [reflexivity | cbn; tauto]. }
    exists (S (Nat.max gr gl)), (br || bl)%bool. intros [|gas'] Hle; [lia|].
    cbn [isGuaranteedDivisible]. rewrite Ef, Eop.
    rewrite (isGuaranteedDivisible_gas_monotone g gr gas' _ _ _ br) by (lia || exact Hr).
    destruct br; [reflexivity|].
    rewrite (isGuaranteedDivisible_gas_monotone g gl gas' _ _ _ bl) by (lia || exact Hl).
    reflexivity.
  - (* arith.index_cast *)
    destruct (Hcall x (fuel - 1)) as (gx & bx & Hx).
    { eexists; split; [reflexivity | cbn; tauto]. }
    exists (S gx), bx. intros [|gas'] Hle; [lia|].
    cbn [isGuaranteedDivisible]. rewrite Ef, Eop.
    apply (isGuaranteedDivisible_gas_monotone g gx); [lia | exact Hx].
Qed.

Lemma in_numbered {A : Type} (l : list A) : forall start v x,
  nth_error l v = Some x ->
  In ((start + v)%nat, x) (combine (seq start (List.length l)) l).
Proof.
  induction l as [|y l IH]; intros start [|v] x H; try discriminate;
    cbn [List.length seq combine nth_error] in *.
  - injection H as ->. left. f_equal. lia.
  - right. replace (start + S v)%nat with (S start + v)%nat by lia.
    now apply IH.
Qed.

(** A graph whose operations use earlier values only has no cycle. *)
Lemma ssa_ordered_acyclic (g : Graph.t) : ssa_ordered g = true -> acyclic g.
Proof.
  intro H. unfold acyclic.
  apply (well_founded_lt_compat nat (fun v => v)).
  intros u v (op & Hop & Hu).
  unfold ssa_ordered in H. rewrite forallb_forall in H.
  specialize (H (v, op) (in_numbered g 0 v op Hop)). cbn beta iota in H.
  rewrite forallb_forall in H. apply H in Hu.
  now apply Nat.ltb_lt in Hu.
Qed.

Lemma isGuaranteedDivisible_terminates_witness :
  acyclic scenario_graph
  /\ exists gas b,
       forall gas', (gas <= gas')%nat ->
         isGuaranteedDivisible scenario_graph gas' 5 12 4 = Some b.
Proof.
  assert (H : acyclic scenario_graph)
    by (apply ssa_ordered_acyclic; reflexivity).
  split; [exact H|].
  exact (isGuaranteedDivisible_terminates scenario_graph H 5%nat 12 4).
Defined.

(** On a graph with a cycle the fuel alone does not end the recursion:
    the left operand of a multiplication gets fuel [(1 + 1) / 2 = 1]
    again.  Here value 0 is its own left operand. *)
(** C9, as the specification words it, fails: the fuel does not
    strictly decrease, so it is not what ends the recursion.  If it
    were, a call with fuel [f >= 0] would nest at most [f + 1] deep.
    On the chain of 50 multiplications, which has no cycle, the call
    with fuel 1 passes fuel [(1 + 1) / 2 = 1] on to every left operand:
    it has no answer at depth 2, nor at depth 50, and finds the
    constant at depth 51. *)
Lemma fuel_does_not_bound_depth_counterexample :
  acyclic (Chain.mul_chain 50)
  /\ isGuaranteedDivisible (Chain.mul_chain 50) 2 50 6 1 = None
  /\ isGuaranteedDivisible (Chain.mul_chain 50) 50 50 6 1 = None
  /\ isGuaranteedDivisible (Chain.mul_chain 50) 51 50 6 1 = Some true
  /\ ~ (forall g value divisor fuel,
          acyclic g -> 0 <= fuel ->
          isGuaranteedDivisible g (S (Z.to_nat fuel)) value divisor fuel
          <> None).
Proof.
  assert (Ha : acyclic (Chain.mul_chain 50))
    by (apply ssa_ordered_acyclic; vm_compute; reflexivity).
  split; [exact Ha|].
  split; [vm_compute; reflexivity|].
  split; [vm_compute; reflexivity|].
  split; [vm_compute; reflexivity|].
  intro H.
  apply (H (Chain.mul_chain 50) 50%nat 6 1 Ha); [lia|].
  vm_compute. reflexivity.
Qed.

Example cyclic_graph_never_answers (gas : nat) :
  isGuaranteedDivisible [MulIOp 0 1] gas 0 2 1 = None.
Proof.
  induction gas as [|gas IH]; [reflexivity|].
  cbn [isGuaranteedDivisible getDefiningOp nth_error Z.leb Z.compare].
  destruct gas as [|gas]; [reflexivity|]. exact IH.
Qed.

(** The prover on a graph answers as the prover on the unfolding of
    the value. *)
Lemma isGuaranteedDivisible_unfolds (g : Graph.t) (value : nat)
      (e : Expr.Value) :
  unfolds g value e ->
  forall gas divisor fuel b,
    isGuaranteedDivisible g gas value divisor fuel = Some b ->
    b = Expr.isGuaranteedDivisible e divisor fuel.
Proof.
  induction 1 as [v x m e Hop _ IH | v lhs rhs el er Hop _ IHl _ IHr
                 | v a Hop | v x e Hop _ IH | v xs Hop | v Hop];
    intros [|gas] divisor fuel b; try discriminate;
    cbn [isGuaranteedDivisible Expr.isGuaranteedDivisible];
    rewrite Hop; destruct (fuel <=? 0); try congruence.
  - destruct (isGuaranteedDivisible g gas rhs divisor (Z.quot fuel 2))
      as [[|]|] eqn:Er; try discriminate.
    + apply IHr in Er. rewrite <- Er. cbn. congruence.
    + apply IHr in Er. rewrite <- Er. cbn. apply IHl.
  - destruct a; congruence.
  - apply IH.
Qed.
End GraphProofs.

(* ================================================================== *)
(** * Part III. Further properties                                     *)
(* ================================================================== *)

(** ** The parser: what it accepts, and where it gives up *)

Module ParserExtras.
Import Asm Grammar TiledLayoutAttr Ahead ParseProofs TiledLayoutProofs.

Lemma not_ahead_optional (k : Token) (ts : list Token) :
  starts_with k ts = false -> parseOptionalToken k ts = Ok false ts.
Proof.
  destruct ts as [|t ts]; [reflexivity|].
  cbn [starts_with parseOptionalToken]. now intros ->.
Qed.

Lemma not_ahead_required (k : Token) (ts : list Token) :
  starts_with k ts = false -> parseToken k ts = Fail.
Proof.
  destruct ts as [|t ts]; [reflexivity|].
  cbn [starts_with parseToken]. now intros ->.
Qed.

(** The tiles of the text, then whatever [continue] does with the rest. *)
Lemma parse_after_tiles (xs : list Tile.t) (tx rest : list Token) :
  Grammar.tiles xs tx ->
  starts_with l_paren rest = false ->
  parse (less :: tx ++ rest)
  = bind parseComma
      (fun _ =>
         bind parseOptionalLSquare
           (fun opened =>
              if opened : bool then
                bind (with_fuel (fun n => parseIntegers r_square n true []))
                     (fun tile_strides =>
                        bind parseGreater
                             (fun _ => ret (get xs tile_strides)))
              else fun _ => Fail))
      rest.
Proof.
  intros Hx Hr. unfold parse.
  unfold bind at 1. cbn [parseLess parseToken is_tok].
  unfold bind at 1, with_fuel.
  rewrite (parseTiles_complete xs tx Hx);
    [ reflexivity | now apply not_ahead_optional
    | rewrite length_app; lia ].
Qed.

(** X1. [parse] succeeds on a token stream exactly when the stream
    starts with the text of a descriptor of the grammar; it then returns
    that descriptor and leaves the tokens after the text unread. *)
Theorem parse_iff_descriptor
        (ts rest : list Token) (a : TiledLayoutAttr.t) :
  parse ts = Ok a rest <->
  exists body, ts = body ++ rest /\ descriptor a body.
Proof.
  split.
  - apply parse_sound.
  - intros (body & -> & H). now apply parse_complete.
Qed.

(** The descriptor of section 8, property 6 of the specification. *)
Lemma example_in_range :
  in_range (get [Tile.Build [8; 128]; Tile.Build [1; 128]] [1; 8]).
Proof. split; repeat constructor. Qed.

Lemma tiles_8_128 :
  Grammar.tiles [Tile.Build [8; 128]]
                [l_paren; integer 8; comma; integer 128; r_paren].
Proof.
  apply (print_tiles_ok [Tile.Build [8; 128]]). repeat constructor.
Qed.

Lemma strides_1_8 : int_list [1; 8] [integer 1; comma; integer 8].
Proof. apply (print_int_list_ok [1; 8]). repeat constructor. Qed.

(** X2. Two descriptors whose integers fit an [int64_t] and that print
    the same text are the same descriptor. *)
Theorem print_injective (a b : TiledLayoutAttr.t) :
  in_range a -> in_range b -> print a = print b -> a = b.
Proof.
  intros Ha Hb E.
  pose proof (parse_print a Ha) as Pa.
  pose proof (parse_print b Hb) as Pb.
  rewrite E in Pa. rewrite Pa in Pb. now injection Pb.
Qed.

Lemma print_injective_witness :
  in_range (get [Tile.Build [8; 128]; Tile.Build [1; 128]] [1; 8])
  /\ get [Tile.Build [8; 128]; Tile.Build [1; 128]] [1; 8]
     = get [Tile.Build [8; 128]; Tile.Build [1; 128]] [1; 8].
Proof.
  split; [exact example_in_range|].
  exact (print_injective _ _ example_in_range example_in_range eq_refl).
Defined.

(** X3. After the tiles a comma is required: when the stream goes on
    with neither a tile nor a comma (or ends), [parse] fails. *)
Theorem parse_needs_comma (xs : list Tile.t) (tx rest : list Token) :
  Grammar.tiles xs tx ->
  starts_with l_paren rest = false ->
  starts_with comma rest = false ->
  parse (less :: tx ++ rest) = Fail.
Proof.
  intros Hx Hp Hc. rewrite (parse_after_tiles xs) by assumption.
  unfold bind at 1. unfold parseComma.
  now rewrite not_ahead_required.
Qed.

Lemma parse_needs_comma_witness :
  parse (tokens "<(8,128)[1,8]>") = Fail.
Proof.
  exact (parse_needs_comma
           [Tile.Build [8; 128]] _
           [l_square; integer 1; comma; integer 8; r_square; greater]
           tiles_8_128 eq_refl eq_refl).
Defined.

(** X4. The list of strides is not optional: when no [[] follows the
    comma, [parse] fails, although it only probes for the bracket. *)
Theorem parse_needs_stride_list (xs : list Tile.t) (tx rest : list Token) :
  Grammar.tiles xs tx ->
  starts_with l_square rest = false ->
  parse (less :: tx ++ comma :: rest) = Fail.
Proof.
  intros Hx Hs. rewrite (parse_after_tiles xs) by (assumption || reflexivity).
  unfold bind at 1. cbn [parseComma parseToken is_tok].
  unfold bind at 1. unfold parseOptionalLSquare.
  now rewrite not_ahead_optional.
Qed.

Lemma parse_needs_stride_list_witness :
  parse (tokens "<(8,128),1,8>") = Fail.
Proof.
  exact (parse_needs_stride_list
           [Tile.Build [8; 128]] _
           [integer 1; comma; integer 8; greater]
           tiles_8_128 eq_refl).
Defined.

(** X5. After the strides the closing [>] is required: without it
    [parse] fails, whatever tiles and strides it has read. *)
Theorem parse_needs_greater
        (xs : list Tile.t) (strides : list Z) (tx tz rest : list Token) :
  Grammar.tiles xs tx ->
  int_list strides tz ->
  starts_with greater rest = false ->
  parse (less :: tx ++ comma :: l_square :: tz ++ r_square :: rest) = Fail.
Proof.
  intros Hx Hz Hg. rewrite (parse_after_tiles xs) by (assumption || reflexivity).
  unfold bind at 1. cbn [parseComma parseToken is_tok].
  unfold bind at 1. cbn [parseOptionalLSquare parseOptionalToken is_tok].
  unfold bind at 1, with_fuel.
  rewrite (parseIntegers_complete r_square (or_intror eq_refl) strides tz);
    [ | assumption | rewrite length_app; simpl; lia ].
  unfold bind at 1. unfold parseGreater.
  now rewrite not_ahead_required.
Qed.

Lemma parse_needs_greater_witness :
  parse (tokens "<(8,128),[1,8]") = Fail.
Proof.
  exact (parse_needs_greater
           [Tile.Build [8; 128]] [1; 8] _ _ []
           tiles_8_128 strides_1_8 eq_refl).
Defined.

Section BrokenList.

Variable close : Token.
Hypothesis close_closes : closing close.

Lemma parseIntegers_no_more (zs : list Z) (body : list Token) :
  more_ints zs body ->
  forall fuel acc rest,
    (List.length body < fuel)%nat ->
    starts_with close rest = false ->
    starts_with comma rest = false
    \/ (exists rest', rest = comma :: rest' /\ parseInteger rest' = Fail) ->
    parseIntegers close fuel false acc (body ++ rest) = Fail.
Proof.
  intros Hm; induction Hm as [|z zs tz ts Hz Hm IH];
    intros [|fuel] acc rest Hf Hclose Hnext; try (simpl in Hf; lia);
    cbn [parseIntegers]; unfold bind at 1.
  - rewrite app_nil_l, not_ahead_optional by assumption.
    unfold bind at 1. unfold parseComma.
    destruct Hnext as [Hc | (rest' & -> & Hi)].
    + now rewrite not_ahead_required.
    + cbn [parseToken is_tok]. unfold bind at 1. now rewrite Hi.
  - flatten. rewrite (comma_not_closing close close_closes).
    unfold bind at 1. cbn [parseComma parseToken is_tok].
    unfold bind at 1. rewrite (parseInteger_complete z tz) by assumption.
    apply IH; try assumption.
    cbn [List.length] in Hf. rewrite length_app in Hf. lia.
Qed.

Lemma parseIntegers_broken (zs : list Z) (body rest : list Token) :
  int_list zs body ->
  breaks_list close zs rest ->
  forall fuel,
    (List.length body < fuel)%nat ->
    parseIntegers close fuel true [] (body ++ rest) = Fail.
Proof.
  intros [|z zs' tz ts Hz Hm] [Hclose Hnext] [|fuel] Hf;
    try (simpl in Hf; lia); cbn [parseIntegers]; unfold bind at 1.
  - rewrite app_nil_l, not_ahead_optional by assumption.
    unfold bind at 1, ret at 1. unfold bind at 1. now rewrite Hnext.
  - flatten. rewrite (int_not_closing close close_closes z tz) by assumption.
    unfold bind at 1, ret at 1. unfold bind at 1.
    rewrite (parseInteger_complete z tz) by assumption.
    apply (parseIntegers_no_more zs' ts); try assumption.
    rewrite length_app in Hf.
    assert (tz <> []) by (destruct Hz; discriminate).
    destruct tz; [congruence | simpl in Hf; lia].
Qed.

End BrokenList.

Lemma parseTiles_broken (xs : list Tile.t) (tx : list Token)
      (zs : list Z) (ti rest : list Token) :
  Grammar.tiles xs tx ->
  int_list zs ti ->
  breaks_list r_paren zs rest ->
  forall fuel tiles,
    (List.length tx < fuel)%nat ->
    parseTiles fuel tiles (tx ++ l_paren :: ti ++ rest) = Fail.
Proof.
  intros Hx Hz Hb.
  induction Hx as [|x xs tx ts [zs' ti' Hz'] Hxs IH];
    intros [|fuel] tiles Hf; try (simpl in Hf; lia);
    cbn [parseTiles]; unfold bind at 1.
  - rewrite app_nil_l.
    cbn [parseOptionalLParen parseOptionalToken is_tok].
    unfold bind at 1, with_fuel.
    rewrite (parseIntegers_broken r_paren (or_introl eq_refl) zs ti rest);
      [ reflexivity | assumption | assumption | rewrite length_app; lia ].
  - flatten.
    cbn [parseOptionalLParen parseOptionalToken is_tok].
    unfold bind at 1, with_fuel.
    rewrite (parseIntegers_complete r_paren (or_introl eq_refl) zs' ti');
      [ | assumption | rewrite length_app; simpl; lia ].
    apply IH.
    cbn [List.length] in Hf. rewrite !length_app in Hf. simpl in Hf. lia.
Qed.

(** X6. A list of tile sizes has to be closed and its items separated:
    when, after the sizes read so far, the stream neither closes the
    tile nor goes on with a size (a comma and an integer; an integer
    right after the opening parenthesis), [parse] fails. *)
Theorem parse_rejects_broken_tile
        (xs : list Tile.t) (zs : list Z) (tx ti rest : list Token) :
  Grammar.tiles xs tx ->
  int_list zs ti ->
  breaks_list r_paren zs rest ->
  parse (less :: tx ++ l_paren :: ti ++ rest) = Fail.
Proof.
  intros Hx Hz Hb. unfold parse.
  unfold bind at 1. cbn [parseLess parseToken is_tok].
  unfold bind at 1, with_fuel.
  rewrite (parseTiles_broken xs tx zs ti rest);
    [ reflexivity | assumption | assumption | assumption
    | rewrite length_app; lia ].
Qed.

Lemma size_8 : int_list [8] [integer 8].
Proof. apply (print_int_list_ok [8]). repeat constructor. Qed.

Lemma parse_rejects_broken_tile_witness :
  parse (tokens "<(8 128),[1,8]>") = Fail
  /\ parse (tokens "<(8,128") = Fail.
Proof.
  split.
  - refine (parse_rejects_broken_tile
              [] [8] [] [integer 8]
              [integer 128; r_paren; comma; l_square; integer 1; comma;
               integer 8; r_square; greater]
              tiles_done size_8 _).
    split; [reflexivity | left; reflexivity].
  - refine (parse_rejects_broken_tile
              [] [8; 128] [] [integer 8; comma; integer 128] []
              tiles_done _ _).
    + apply (print_int_list_ok [8; 128]). repeat constructor.
    + split; [reflexivity | left; reflexivity].
Defined.

(** X7. The same holds of the list of strides: when, after the strides
    read so far, the stream neither closes the list with a closing
    bracket nor goes on with a stride, [parse] fails. *)
Theorem parse_rejects_broken_strides
        (xs : list Tile.t) (zs : list Z) (tx tz rest : list Token) :
  Grammar.tiles xs tx ->
  int_list zs tz ->
  breaks_list r_square zs rest ->
  parse (less :: tx ++ comma :: l_square :: tz ++ rest) = Fail.
Proof.
  intros Hx Hz Hb. rewrite (parse_after_tiles xs) by (assumption || reflexivity).
  unfold bind at 1. cbn [parseComma parseToken is_tok].
  unfold bind at 1. cbn [parseOptionalLSquare parseOptionalToken is_tok].
  unfold bind at 1, with_fuel.
  rewrite (parseIntegers_broken r_square (or_intror eq_refl) zs tz rest);
    [ reflexivity | assumption | assumption | rewrite length_app; lia ].
Qed.

Lemma stride_1 : int_list [1] [integer 1].
Proof. apply (print_int_list_ok [1]). repeat constructor. Qed.

Lemma parse_rejects_broken_strides_witness :
  parse (tokens "<(8,128),[1,]>") = Fail
  /\ parse (tokens "<(8,128),[x]>") = Fail.
Proof.
  split.
  - refine (parse_rejects_broken_strides
              [Tile.Build [8; 128]] [1] _ [integer 1]
              [comma; r_square; greater]
              tiles_8_128 stride_1 _).
    split; [reflexivity | right].
    exists [r_square; greater]. split; reflexivity.
  - refine (parse_rejects_broken_strides
              [Tile.Build [8; 128]] [] _ []
              [other "x"%char; r_square; greater]
              tiles_8_128 int_list_empty _).
    split; reflexivity.
Defined.
End ParserExtras.

(** ** The affine map: what tiling computes *)

Module TilingProofs.
Import Affine TiledLayoutMap AffineProofs TiledLayoutMapProofs Tiling.

Lemma skipn_cons_nth (xs : list Z) : forall s,
  (s < List.length xs)%nat ->
  skipn s xs = nth s xs 0 :: skipn (S s) xs.
Proof.
  induction xs as [|x xs IH]; intros [|s] H; cbn [List.length] in H;
    try lia; [reflexivity|].
  cbn [skipn nth]. apply IH. lia.
Qed.

Lemma dims_in_order (xs syms : list Z) (n : nat) : forall s,
  (s + n <= List.length xs)%nat ->
  List.map (evalExpr xs syms) (List.map getAffineDimExpr (seq s n))
  = firstn n (skipn s xs).
Proof.
  induction n as [|n IH]; intros s H; [reflexivity|].
  cbn [seq List.map evalExpr getAffineDimExpr].
  rewrite (skipn_cons_nth xs s) by lia. cbn [firstn]. f_equal.
  apply IH. lia.
Qed.

Lemma eval_identity (n : nat) (xs syms : list Z) :
  List.length xs = n ->
  eval (getMultiDimIdentityMap n) xs syms = xs.
Proof.
  intro H. unfold eval, getMultiDimIdentityMap. cbn [getResults].
  rewrite dims_in_order by lia. cbn [skipn]. subst n. apply firstn_all.
Qed.

Lemma eval_quotients (xs syms ds : list Z) (u : nat) : forall i,
  (u + i + List.length ds <= List.length xs)%nat ->
  List.map (evalExpr xs syms)
           (push_tiled (fun i d => floorDiv (getAffineDimExpr (u + i)) d) i ds)
  = quotients (skipn (u + i) xs) ds.
Proof.
  induction ds as [|d ds IH]; intros i H; cbn [List.length] in H.
  - now destruct (skipn (u + i) xs).
  - cbn [push_tiled List.map]. rewrite (skipn_cons_nth xs (u + i)) by lia.
    cbn [quotients]. f_equal.
    replace (S (u + i)) with (u + S i)%nat by lia. apply IH. lia.
Qed.

Lemma eval_remainders (xs syms ds : list Z) (u : nat) : forall i,
  (u + i + List.length ds <= List.length xs)%nat ->
  List.map (evalExpr xs syms)
           (push_tiled (fun i d => mod_ (getAffineDimExpr (u + i)) d) i ds)
  = remainders (skipn (u + i) xs) ds.
Proof.
  induction ds as [|d ds IH]; intros i H; cbn [List.length] in H.
  - now destruct (skipn (u + i) xs).
  - cbn [push_tiled List.map]. rewrite (skipn_cons_nth xs (u + i)) by lia.
    cbn [remainders]. f_equal.
    replace (S (u + i)) with (u + S i)%nat by lia. apply IH. lia.
Qed.

Lemma eval_tile_exprs (u : nat) (ds xs syms : list Z) :
  (u + List.length ds <= List.length xs)%nat ->
  List.map (evalExpr xs syms) (tile_exprs u ds) = tiled u ds xs.
Proof.
  intro H. unfold tile_exprs, tiled. rewrite !map_app.
  rewrite dims_in_order by lia. cbn [skipn].
  rewrite eval_quotients, eval_remainders by lia.
  now rewrite Nat.add_0_r.
Qed.

Lemma eval_tile_map (map : AffineMap) (tile : Tile.t) (xs syms : list Z) :
  0 <= untiled_dims map tile ->
  List.length xs = getNumResults map ->
  eval (tile_map map tile) xs syms
  = tiled (getNumResults map - rank tile) (Tile.dimensions tile) xs.
Proof.
  intros Hu Hx. unfold eval, tile_map. cbn [getResults].
  unfold untiled_dims, rank in *.
  replace (Z.to_nat (Z.of_nat (getNumResults map)
                     - Z.of_nat (List.length (Tile.dimensions tile))))
    with (getNumResults map - List.length (Tile.dimensions tile))%nat by lia.
  apply eval_tile_exprs. lia.
Qed.

Lemma length_eval (map : AffineMap) (xs syms : list Z) :
  List.length (eval map xs syms) = getNumResults map.
Proof. unfold eval, getNumResults. apply length_map. Qed.

(** What one round of the loop does to the meaning of the map. *)
Lemma eval_step (before after : AffineMap) (tile : Tile.t) :
  getNumSymbols before = 0%nat ->
  step before tile = Returns after ->
  forall xs syms,
    eval after xs syms
    = tiled (getNumResults before - rank tile) (Tile.dimensions tile)
            (eval before xs syms).
Proof.
  intros Hs H xs syms. apply step_Returns in H as [Hu ->].
  rewrite eval_compose by (assumption || now apply tile_map_below).
  apply eval_tile_map; [assumption | apply length_eval].
Qed.

Lemma last_round (strides : list Z) (pre : list Tile.t) (tile : Tile.t)
      (before after : AffineMap) :
  getAffineMap (TiledLayoutAttr.get pre strides) = Returns before ->
  getAffineMap (TiledLayoutAttr.get (pre ++ [tile]) strides) = Returns after ->
  getNumSymbols before = 0%nat /\ step before tile = Returns after.
Proof.
  unfold getAffineMap.
  cbn [TiledLayoutAttr.getTiles TiledLayoutAttr.getTileStrides].
  intros Hpre Hall. rewrite loop_app, Hpre in Hall. cbn [loop] in Hall.
  split.
  - apply loop_shape in Hpre as (_ & _ & ->). reflexivity.
  - destruct (step before tile); [discriminate | exact Hall].
Qed.

(** X8. A tile of rank [k] splits the last [k] dimensions of the index
    computed so far: the dimensions before them pass through, then come
    the [k] floor quotients by the tile sizes, then the [k]
    remainders. *)
Theorem tile_splits_trailing_dimensions
        (strides : list Z) (pre : list Tile.t) (tile : Tile.t)
        (before after : AffineMap) :
  getAffineMap (TiledLayoutAttr.get pre strides) = Returns before ->
  getAffineMap (TiledLayoutAttr.get (pre ++ [tile]) strides) = Returns after ->
  forall xs syms,
    eval after xs syms
    = firstn (getNumResults before - rank tile) (eval before xs syms)
      ++ quotients (skipn (getNumResults before - rank tile)
                          (eval before xs syms))
                   (Tile.dimensions tile)
      ++ remainders (skipn (getNumResults before - rank tile)
                           (eval before xs syms))
                    (Tile.dimensions tile).
Proof.
  intros Hpre Hall xs syms.
  destruct (last_round _ _ _ _ _ Hpre Hall) as [Hs Hstep].
  exact (eval_step before after tile Hs Hstep xs syms).
Qed.

Lemma tile_splits_trailing_dimensions_witness :
  exists before after,
    getAffineMap (TiledLayoutAttr.get [tile_8_128] [1; 8]) = Returns before
    /\ getAffineMap (TiledLayoutAttr.get [tile_8_128; tile_1_128] [1; 8])
       = Returns after
    /\ forall xs syms,
        eval after xs syms
        = firstn 2 (eval before xs syms)
          ++ quotients (skipn 2 (eval before xs syms)) [1; 128]
          ++ remainders (skipn 2 (eval before xs syms)) [1; 128].
Proof.
  eexists; eexists.
  split; [reflexivity|]. split; [reflexivity|].
  exact (tile_splits_trailing_dimensions
           [1; 8] [tile_8_128] tile_1_128 _ _ eq_refl eq_refl).
Defined.

Lemma quotients_nil (xs : list Z) : quotients xs [] = [].
Proof. now destruct xs. Qed.

Lemma remainders_nil (xs : list Z) : remainders xs [] = [].
Proof. now destruct xs. Qed.

Lemma length_quotients (ds : list Z) : forall xs,
  List.length xs = List.length ds ->
  List.length (quotients xs ds) = List.length ds.
Proof.
  induction ds as [|d ds IH]; intros [|x xs] H; try discriminate;
    [reflexivity|].
  cbn. f_equal. apply IH. now injection H.
Qed.

Lemma remainders_in_range (ds : list Z) : forall xs,
  Forall (fun d => 0 < d) ds ->
  List.length xs = List.length ds ->
  Forall2 (fun r d => 0 <= r < d) (remainders xs ds) ds.
Proof.
  induction ds as [|d ds IH]; intros [|x xs] Hd H; try discriminate;
    [constructor|].
  inversion Hd; subst. cbn [remainders]. constructor.
  - now apply Z.mod_pos_bound.
  - apply IH; [assumption | now injection H].
Qed.

Lemma step_rank_fits (before after : AffineMap) (tile : Tile.t) :
  step before tile = Returns after ->
  (rank tile <= getNumResults before)%nat.
Proof.
  intro H. apply step_Returns in H as [Hu _].
  unfold untiled_dims, rank in *. lia.
Qed.

(** X9. With positive tile sizes, the last [k] results after a tile of
    rank [k] are indices within the tile: each is at least 0 and less
    than the tile size of its dimension, whatever the input. *)
Theorem index_within_tile_in_range
        (strides : list Z) (pre : list Tile.t) (tile : Tile.t)
        (before after : AffineMap) :
  Forall (fun d => 0 < d) (Tile.dimensions tile) ->
  getAffineMap (TiledLayoutAttr.get pre strides) = Returns before ->
  getAffineMap (TiledLayoutAttr.get (pre ++ [tile]) strides) = Returns after ->
  forall xs syms,
    Forall2 (fun r d => 0 <= r < d)
            (skipn (getNumResults before) (eval after xs syms))
            (Tile.dimensions tile).
Proof.
  intros Hpos Hpre Hall xs syms.
  destruct (last_round _ _ _ _ _ Hpre Hall) as [Hs Hstep].
  pose proof (step_rank_fits _ _ _ Hstep) as Hk.
  rewrite (eval_step before after tile Hs Hstep xs syms). unfold tiled.
  pose proof (length_eval before xs syms) as Hlen.
  set (ys := eval before xs syms) in *.
  set (u := (getNumResults before - rank tile)%nat) in *.
  assert (Hskip : List.length (skipn u ys) = List.length (Tile.dimensions tile)).
  { rewrite length_skipn. unfold u, rank in *. lia. }
  assert (Hfirst : List.length (firstn u ys) = u).
  { rewrite length_firstn. unfold u. lia. }
  rewrite !skipn_app, Hfirst, (length_quotients _ _ Hskip).
  rewrite (skipn_all2 (firstn u ys)) by lia.
  rewrite (skipn_all2 (quotients _ _))
    by (rewrite (length_quotients _ _ Hskip); unfold u, rank in *; lia).
  replace (getNumResults before - u - List.length (Tile.dimensions tile))%nat
    with 0%nat by (unfold u, rank in *; lia).
  cbn [Datatypes.app skipn].
  now apply remainders_in_range.
Qed.

Lemma index_within_tile_in_range_witness :
  exists before after,
    getAffineMap (TiledLayoutAttr.get [tile_8_128] [1; 8]) = Returns before
    /\ getAffineMap (TiledLayoutAttr.get [tile_8_128; tile_1_128] [1; 8])
       = Returns after
    /\ forall xs syms,
        Forall2 (fun r d => 0 <= r < d)
                (skipn 4 (eval after xs syms)) [1; 128].
Proof.
  eexists; eexists.
  split; [reflexivity|]. split; [reflexivity|].
  refine (index_within_tile_in_range
            [1; 8] [tile_8_128] tile_1_128 _ _ _ eq_refl eq_refl).
  repeat constructor.
Defined.

Lemma app_same_length {A : Type} (a a' b b' : list A) :
  List.length a = List.length a' ->
  a ++ b = a' ++ b' -> a = a' /\ b = b'.
Proof.
  revert a'. induction a as [|x a IH]; intros [|x' a'] Hl H;
    try discriminate; [now split|].
  cbn in H. injection H as -> H. injection Hl as Hl.
  destruct (IH a' Hl H) as [-> ->]. now split.
Qed.

Lemma split_injective (ds : list Z) : forall xs ys,
  Forall (fun d => 0 < d) ds ->
  List.length xs = List.length ds ->
  List.length ys = List.length ds ->
  quotients xs ds = quotients ys ds ->
  remainders xs ds = remainders ys ds ->
  xs = ys.
Proof.
  induction ds as [|d ds IH]; intros [|x xs] [|y ys] Hd Hx Hy Hq Hr;
    try discriminate; [reflexivity|].
  inversion Hd; subst. cbn in Hq, Hr.
  injection Hq as Hq0 Hq. injection Hr as Hr0 Hr.
  f_equal.
  - rewrite (Z.div_mod x d), (Z.div_mod y d) by lia. congruence.
  - apply IH; try assumption; [now injection Hx | now injection Hy].
Qed.

Lemma tiled_injective (u : nat) (ds xs ys : list Z) :
  Forall (fun d => 0 < d) ds ->
  List.length xs = (u + List.length ds)%nat ->
  List.length ys = (u + List.length ds)%nat ->
  tiled u ds xs = tiled u ds ys -> xs = ys.
Proof.
  intros Hd Hx Hy H. unfold tiled in H.
  assert (Hsx : List.length (skipn u xs) = List.length ds)
    by (rewrite length_skipn; lia).
  assert (Hsy : List.length (skipn u ys) = List.length ds)
    by (rewrite length_skipn; lia).
  apply app_same_length in H as [Hf H];
    [| rewrite !length_firstn; lia].
  apply app_same_length in H as [Hq Hr];
    [| now rewrite !length_quotients].
  rewrite <- (firstn_skipn u xs), <- (firstn_skipn u ys), Hf. f_equal.
  now apply (split_injective ds).
Qed.

Lemma loop_injective (tiles : list Tile.t) : forall start map,
  positive_sizes tiles ->
  getNumSymbols start = 0%nat ->
  loop start tiles = Returns map ->
  forall xs ys syms,
    eval map xs syms = eval map ys syms ->
    eval start xs syms = eval start ys syms.
Proof.
  induction tiles as [|tile tiles IH]; intros start map Hpos Hs; cbn [loop].
  - intro H; injection H as <-. auto.
  - destruct (step start tile) as [|next] eqn:E; [discriminate|].
    intros H xs ys syms Heq. inversion Hpos; subst.
    assert (Hs' : getNumSymbols next = 0%nat).
    { apply step_shape in E as (_ & _ & ->). exact Hs. }
    apply (IH next map) with (xs := xs) (ys := ys) (syms := syms) in H;
      try assumption.
    rewrite !(eval_step start next tile Hs E) in H.
    pose proof (step_rank_fits _ _ _ E) as Hk. unfold rank in *.
    apply tiled_injective in H; try assumption;
      rewrite length_eval; lia.
Qed.

(** X10. Tiling by positive sizes loses nothing: the map that
    [getAffineMap] returns sends different indices (tuples of as many
    integers as there are strides) to different results. *)
Theorem getAffineMap_injective
        (a : TiledLayoutAttr.t) (map : AffineMap) (xs ys syms : list Z) :
  positive_sizes (TiledLayoutAttr.getTiles a) ->
  getAffineMap a = Returns map ->
  List.length xs = List.length (TiledLayoutAttr.getTileStrides a) ->
  List.length ys = List.length (TiledLayoutAttr.getTileStrides a) ->
  eval map xs syms = eval map ys syms ->
  xs = ys.
Proof.
  unfold getAffineMap. intros Hpos H Hx Hy Heq.
  apply (loop_injective _ (getMultiDimIdentityMap _) _ Hpos eq_refl H) in Heq.
  now rewrite !eval_identity in Heq.
Qed.

Lemma getAffineMap_injective_witness :
  exists map,
    getAffineMap (TiledLayoutAttr.get [tile_8_128; tile_1_128] [1; 8])
    = Returns map
    /\ eval map [9; 300] [] = eval map [9; 300] []
    /\ [9; 300] = [9; 300].
Proof.
  eexists. split; [reflexivity|]. split; [reflexivity|].
  refine (getAffineMap_injective
            (TiledLayoutAttr.get [tile_8_128; tile_1_128] [1; 8]) _
            [9; 300] [9; 300] [] _ eq_refl eq_refl eq_refl eq_refl).
  repeat constructor.
Defined.

(** X11. A tile with no sizes is harmless: it never leads to the fatal
    path, and the map after it has the results, on every input, of the
    map before it. *)
Theorem empty_tile_changes_nothing
        (strides : list Z) (pre : list Tile.t) (before : AffineMap) :
  getAffineMap (TiledLayoutAttr.get pre strides) = Returns before ->
  exists after,
    getAffineMap (TiledLayoutAttr.get (pre ++ [Tile.Build []]) strides)
    = Returns after
    /\ forall xs syms, eval after xs syms = eval before xs syms.
Proof.
  intro Hpre.
  assert (Hstep : step before (Tile.Build [])
                  = Returns (compose (tile_map before (Tile.Build [])) before)).
  { unfold step, untiled_dims. cbn [Tile.dimensions List.length].
    destruct (Z.ltb_spec (Z.of_nat (getNumResults before) - Z.of_nat 0) 0);
      [lia | reflexivity]. }
  exists (compose (tile_map before (Tile.Build [])) before). split.
  - unfold getAffineMap in *.
    cbn [TiledLayoutAttr.getTiles TiledLayoutAttr.getTileStrides] in *.
    rewrite loop_app, Hpre. cbn [loop]. now rewrite Hstep.
  - intros xs syms.
    assert (Hs : getNumSymbols before = 0%nat).
    { unfold getAffineMap in Hpre.
      apply loop_shape in Hpre as (_ & _ & ->). reflexivity. }
    rewrite (eval_step before _ _ Hs Hstep). unfold tiled, rank.
    cbn [Tile.dimensions List.length].
    rewrite quotients_nil, remainders_nil, !app_nil_r, Nat.sub_0_r.
    apply firstn_all2. now rewrite length_eval.
Qed.

Lemma empty_tile_changes_nothing_witness :
  exists before after,
    getAffineMap (TiledLayoutAttr.get [tile_8_128] [1; 8]) = Returns before
    /\ getAffineMap (TiledLayoutAttr.get ([tile_8_128] ++ [Tile.Build []])
                                         [1; 8])
       = Returns after
    /\ forall xs syms, eval after xs syms = eval before xs syms.
Proof.
  eexists.
  destruct (empty_tile_changes_nothing [1; 8] [tile_8_128] _ eq_refl)
    as (after & H1 & H2).
  exists after. split; [reflexivity|]. split; [exact H1 | exact H2].
Defined.

(** X12. Without tiles the map is the identity: it returns every index
    of as many integers as there are strides unchanged. *)
Theorem no_tiles_identity (strides xs syms : list Z) :
  List.length xs = List.length strides ->
  exists map,
    getAffineMap (TiledLayoutAttr.get [] strides) = Returns map
    /\ eval map xs syms = xs.
Proof.
  intro H. exists (getMultiDimIdentityMap (List.length strides)).
  split; [reflexivity | now apply eval_identity].
Qed.

Lemma no_tiles_identity_witness :
  exists map,
    getAffineMap (TiledLayoutAttr.get [] [1; 8]) = Returns map
    /\ eval map [9; 300] [] = [9; 300].
Proof. exact (no_tiles_identity [1; 8] [9; 300] [] eq_refl). Defined.

Lemma sum_of_ranks_cons (tile : Tile.t) (tiles : list Tile.t) :
  sum_of_ranks (tile :: tiles) = (rank tile + sum_of_ranks tiles)%nat.
Proof. reflexivity. Qed.

Lemma step_Fatal_rank (start : AffineMap) (tile : Tile.t) :
  step start tile = Fatal <-> (getNumResults start < rank tile)%nat.
Proof.
  rewrite step_Fatal. unfold untiled_dims, rank. lia.
Qed.

Lemma loop_Fatal_ranks (tiles : list Tile.t) : forall start,
  loop start tiles = Fatal <->
  exists pre tile post,
    tiles = pre ++ tile :: post
    /\ (getNumResults start + sum_of_ranks pre < rank tile)%nat.
Proof.
  induction tiles as [|t tiles IH]; intro start; cbn [loop].
  - split; [discriminate|]. intros (pre & tile & post & H & _).
    now destruct pre.
  - destruct (step start t) as [|next] eqn:E.
    + split; [|reflexivity]. intros _. exists [], t, tiles.
      split; [reflexivity|]. apply step_Fatal_rank in E.
      unfold sum_of_ranks. cbn. lia.
    + pose proof (step_rank_fits _ _ _ E) as Hfit.
      apply step_shape in E as (Hn & _ & _). fold (rank t) in Hn.
      rewrite IH. split.
      * intros (pre & tile & post & -> & H).
        exists (t :: pre), tile, post. split; [reflexivity|].
        rewrite sum_of_ranks_cons. lia.
      * intros ([|t' pre] & tile & post & Heq & H);
          cbn [Datatypes.app] in Heq; injection Heq as -> ->.
        -- unfold sum_of_ranks in H. cbn in H. lia.
        -- exists pre, tile, post. split; [reflexivity|].
           rewrite sum_of_ranks_cons in H. lia.
Qed.

(** X13. Whether [getAffineMap] is fatal depends on the ranks alone: it
    is, exactly when some tile has a rank above the number of strides
    plus the ranks of the tiles before it. *)
Theorem getAffineMap_fatal_by_ranks (a : TiledLayoutAttr.t) :
  getAffineMap a = Fatal <->
  exists pre tile post,
    TiledLayoutAttr.getTiles a = pre ++ tile :: post
    /\ (List.length (TiledLayoutAttr.getTileStrides a) + sum_of_ranks pre
        < rank tile)%nat.
Proof.
  unfold getAffineMap. rewrite loop_Fatal_ranks.
  now rewrite getNumResults_identity.
Qed.

(** X14. When no tile has a rank above the number of strides,
    [getAffineMap] returns a map. *)
Theorem getAffineMap_returns_when_ranks_fit (a : TiledLayoutAttr.t) :
  Forall (fun tile =>
            (rank tile <= List.length (TiledLayoutAttr.getTileStrides a))%nat)
         (TiledLayoutAttr.getTiles a) ->
  exists map, getAffineMap a = Returns map.
Proof.
  intro H. destruct (getAffineMap a) as [|map] eqn:E; [|now exists map].
  exfalso. unfold getAffineMap in E.
  apply loop_Fatal_ranks in E as (pre & tile & post & Heq & Hlt).
  rewrite getNumResults_identity in Hlt.
  rewrite Heq, Forall_app in H. destruct H as [_ H].
  inversion H; subst. lia.
Qed.

Lemma getAffineMap_returns_when_ranks_fit_witness :
  exists map,
    getAffineMap (TiledLayoutAttr.get [tile_8_128; tile_1_128] [1; 8])
    = Returns map.
Proof.
  apply (getAffineMap_returns_when_ranks_fit
           (TiledLayoutAttr.get [tile_8_128; tile_1_128] [1; 8])).
  repeat constructor.
Defined.

Lemma replace_below (n : nat) (by_ : list AffineExpr) (e : AffineExpr) :
  Forall (dims_below n) by_ ->
  dims_below (List.length by_) e ->
  dims_below n (replaceDimsAndSymbols by_ [] e).
Proof.
  intro Hby. induction e as [p|p|c|k l IHl r IHr];
    cbn [replaceDimsAndSymbols dims_below].
  - intro Hp. rewrite Forall_forall in Hby. apply Hby. now apply nth_In.
  - now destruct p.
  - trivial.
  - intros [Hl Hr]. split; auto.
Qed.

Lemma compose_results (f g : AffineMap) :
  getNumSymbols g = 0%nat ->
  getResults (compose f g)
  = List.map (replaceDimsAndSymbols (getResults g) []) (getResults f).
Proof.
  intro Hg. unfold compose. cbn [getResults]. rewrite Hg. cbn [seq List.map].
  now rewrite (map_ext _ (fun e => e) (replace_identity (getNumDims g))),
    map_id.
Qed.

Lemma loop_below (n : nat) (tiles : list Tile.t) : forall start map,
  getNumSymbols start = 0%nat ->
  Forall (dims_below n) (getResults start) ->
  loop start tiles = Returns map ->
  Forall (dims_below n) (getResults map).
Proof.
  induction tiles as [|tile tiles IH]; intros start map Hs Hb; cbn [loop].
  - intro H; now injection H as <-.
  - destruct (step start tile) as [|next] eqn:E; [discriminate|].
    apply IH.
    + apply step_shape in E as (_ & _ & ->). exact Hs.
    + apply step_Returns in E as [Hu ->].
      rewrite compose_results by assumption.
      rewrite Forall_map.
      pose proof (tile_map_below start tile Hu) as Ht.
      rewrite Forall_forall in *. intros e He.
      apply replace_below; [now rewrite Forall_forall | now apply Ht].
Qed.

(** X15. The map that [getAffineMap] returns reads its inputs only:
    it has no symbols, and every dimension its results mention is one
    of the inputs, below the number of strides. *)
Theorem getAffineMap_reads_inputs_only
        (a : TiledLayoutAttr.t) (map : AffineMap) :
  getAffineMap a = Returns map ->
  getNumSymbols map = 0%nat
  /\ Forall (dims_below (List.length (TiledLayoutAttr.getTileStrides a)))
            (getResults map).
Proof.
  unfold getAffineMap. intro H. split.
  - apply loop_shape in H as (_ & _ & ->). reflexivity.
  - apply (loop_below (List.length (TiledLayoutAttr.getTileStrides a)) _
                        (getMultiDimIdentityMap _) _ eq_refl) in H;
      [exact H|].
    unfold getMultiDimIdentityMap. cbn [getResults].
    rewrite Forall_map, Forall_forall. intros p Hp.
    apply in_seq in Hp. cbn. lia.
Qed.

Lemma getAffineMap_reads_inputs_only_witness :
  exists map,
    getAffineMap (TiledLayoutAttr.get [tile_8_128; tile_1_128] [1; 8])
    = Returns map
    /\ getNumSymbols map = 0%nat
    /\ Forall (dims_below 2) (getResults map).
Proof.
  eexists. split; [reflexivity|].
  exact (getAffineMap_reads_inputs_only
           (TiledLayoutAttr.get [tile_8_128; tile_1_128] [1; 8]) _ eq_refl).
Defined.
End TilingProofs.

(** ** The prover: what the fuel decides *)

Module SearchProofs.
Import Expr Search ExprProofs.

Lemma no_fuel_no_proof (value : Value) (divisor fuel : Z) :
  fuel <= 0 -> isGuaranteedDivisible value divisor fuel = false.
Proof.
  intro H. apply Z.leb_le in H.
  destruct value; cbn [isGuaranteedDivisible]; now rewrite H.
Qed.

Lemma fuel_needed_positive (value : Value) : 1 <= fuel_needed value.
Proof. induction value; cbn [fuel_needed]; lia. Qed.

(** X16. With enough fuel the budget plays no part: from
    [fuel_needed value] on (one unit for each cast, twice the need of
    the operands for each multiplication) the answer is that of the
    search without a budget. *)
Theorem enough_fuel_decides (value : Value) (divisor fuel : Z) :
  fuel_needed value <= fuel ->
  isGuaranteedDivisible value divisor fuel = has_known_multiple value divisor.
Proof.
  revert fuel.
  assert (Hgo : forall fuel, 1 <= fuel -> (fuel <=? 0) = false)
    by (intros; apply Z.leb_gt; lia).
  induction value as [operand IH multiple | lhs IHl rhs IHr | [c|tag]
                     | operand IH | id];
    intros fuel H; cbn [fuel_needed] in H;
    cbn [isGuaranteedDivisible has_known_multiple].
  - now rewrite Hgo.
  - pose proof (fuel_needed_positive lhs).
    rewrite Hgo, IHr, IHl by (lia || (apply Z.quot_le_lower_bound; lia)).
    reflexivity.
  - now rewrite Hgo.
  - now rewrite Hgo.
  - pose proof (fuel_needed_positive operand).
    rewrite Hgo by lia. apply IH. lia.
  - now rewrite Hgo.
Qed.

Lemma enough_fuel_decides_witness :
  fuel_needed (scenario (Opaque 0)) <= 5
  /\ isGuaranteedDivisible (scenario (Opaque 0)) 4 5
     = has_known_multiple (scenario (Opaque 0)) 4.
Proof.
  assert (H : fuel_needed (scenario (Opaque 0)) <= 5) by (vm_compute; discriminate).
  split; [exact H|].
  exact (enough_fuel_decides (scenario (Opaque 0)) 4 5 H).
Defined.

(** X17. The budget only ever cuts the search short: an answer of true,
    with whatever fuel, is one the search without a budget gives too. *)
Theorem proof_needs_known_multiple (value : Value) (divisor fuel : Z) :
  isGuaranteedDivisible value divisor fuel = true ->
  has_known_multiple value divisor = true.
Proof.
  revert fuel.
  induction value as [operand IH multiple | lhs IHl rhs IHr | [c|tag]
                     | operand IH | id];
    intros fuel; cbn [isGuaranteedDivisible has_known_multiple];
    destruct (fuel <=? 0); try discriminate; try (intro H; exact H).
  - intro H. apply orb_true_iff in H as [H|H]; apply orb_true_iff;
      [left; eapply IHr | right; eapply IHl]; eassumption.
  - apply IH.
Qed.

Lemma proof_needs_known_multiple_witness :
  isGuaranteedDivisible (scenario (Opaque 0)) 3 4 = true
  /\ has_known_multiple (scenario (Opaque 0)) 3 = true.
Proof.
  split; [reflexivity|].
  exact (proof_needs_known_multiple (scenario (Opaque 0)) 3 4 eq_refl).
Defined.

Lemma rem_zero_divisor (c d d' : Z) :
  0 < d -> 0 < d' -> (d' | d) ->
  (Z.rem c d =? 0) = true -> (Z.rem c d' =? 0) = true.
Proof.
  intros Hd Hd' Hdiv H. apply Z.eqb_eq in H. apply Z.eqb_eq.
  apply Z.rem_divide; [lia|]. apply Z.rem_divide in H; [|lia].
  now apply Z.divide_trans with d.
Qed.

(** X18. What is proved divisible by a positive divisor is proved, with
    the same fuel, divisible by each of its positive divisors. *)
Theorem proved_for_divisors_of_divisor
        (value : Value) (divisor divisor' fuel : Z) :
  0 < divisor -> 0 < divisor' -> (divisor' | divisor) ->
  isGuaranteedDivisible value divisor fuel = true ->
  isGuaranteedDivisible value divisor' fuel = true.
Proof.
  intros Hd Hd' Hdiv. revert fuel.
  induction value as [operand IH multiple | lhs IHl rhs IHr | [c|tag]
                     | operand IH | id];
    intros fuel; cbn [isGuaranteedDivisible];
    destruct (fuel <=? 0); try discriminate;
    try (now apply rem_zero_divisor).
  - intro H. apply orb_true_iff in H as [H|H]; apply orb_true_iff;
      [left; now apply IHr | right; now apply IHl].
  - apply IH.
Qed.

Lemma proved_for_divisors_of_divisor_witness :
  (3 | 6)
  /\ isGuaranteedDivisible (six_times (Opaque 0)) 6 1 = true
  /\ isGuaranteedDivisible (six_times (Opaque 0)) 3 1 = true.
Proof.
  assert (H : (3 | 6)) by (exists 2; reflexivity).
  split; [exact H|]. split; [reflexivity|].
  exact (proved_for_divisors_of_divisor
           (six_times (Opaque 0)) 6 3 1 eq_refl eq_refl H eq_refl).
Defined.

(** X19. With a fuel of 1 or less the right operand of a multiplication
    is never examined (it gets the fuel [1 / 2 = 0]): the answer is the
    answer for the left operand. *)
Theorem least_fuel_skips_right_operand (lhs rhs : Value) (divisor fuel : Z) :
  fuel <= 1 ->
  isGuaranteedDivisible (MulIOp lhs rhs) divisor fuel
  = isGuaranteedDivisible lhs divisor fuel.
Proof.
  intro H. destruct (Z.leb_spec fuel 0) as [H0|H0].
  - now rewrite !no_fuel_no_proof.
  - assert (fuel = 1) as -> by lia.
    cbn [isGuaranteedDivisible]. change (1 <=? 0) with false. cbv iota.
    change (Z.quot 1 2) with 0. change (Z.quot (1 + 1) 2) with 1.
    now rewrite (no_fuel_no_proof rhs).
Qed.

Lemma least_fuel_skips_right_operand_witness :
  isGuaranteedDivisible
    (MulIOp (Opaque 0) (ConstantOp (IntegerAttr 6))) 6 1
  = isGuaranteedDivisible (Opaque 0) 6 1.
Proof.
  apply (least_fuel_skips_right_operand
           (Opaque 0) (ConstantOp (IntegerAttr 6)) 6 1).
  vm_compute. discriminate.
Defined.
End SearchProofs.

(** ** The prover on graphs: soundness with sharing *)

Module GraphMeaningProofs.
Import Graph GraphMeaning.

(** X20. On a graph, with shared and even cyclic values: when the
    prover answers true for a positive divisor, the value is a multiple
    of the divisor in every assignment of integers to the values that
    agrees with the operations of the graph. *)
Theorem isGuaranteedDivisible_sound_on_graph
        (g : Graph.t) (assignment : nat -> Z) (gas : nat)
        (value : nat) (divisor fuel : Z) :
  0 < divisor ->
  consistent g assignment ->
  isGuaranteedDivisible g gas value divisor fuel = Some true ->
  (divisor | assignment value).
Proof.
  intros Hd Hc. revert value fuel.
  induction gas as [|gas IH]; intros value fuel; [discriminate|].
  cbn [isGuaranteedDivisible].
  destruct (fuel <=? 0); [discriminate|].
  destruct (getDefiningOp g value) as [op|] eqn:Eop; [|discriminate].
  specialize (Hc value op Eop).
  destruct op as [x m|lhs rhs|[c|tag]|x|xs]; try discriminate.
  - intro H. injection H as H. destruct Hc as [_ Hm].
    apply Z.divide_trans with m; [|exact Hm].
    apply Z.eqb_eq in H. apply Z.rem_divide; [lia | exact H].
  - destruct (isGuaranteedDivisible g gas rhs divisor (Z.quot fuel 2))
      as [[|]|] eqn:Er; try discriminate.
    + intros _. rewrite Hc. apply Z.divide_mul_r. exact (IH rhs _ Er).
    + intro Hl. rewrite Hc. apply Z.divide_mul_l. exact (IH lhs _ Hl).
  - intro H. injection H as H. rewrite Hc.
    apply Z.eqb_eq in H. apply Z.rem_divide; [lia | exact H].
  - intro H. rewrite Hc. exact (IH x _ H).
Qed.

(** An assignment for the graph of the scenario, with [y = 5]. *)
Lemma scenario_assignment_consistent :
  consistent scenario_graph (fun value => nth value [3; 5; 4; 20; 60; 60] 0).
Proof.
  intros value op H.
  do 6 (destruct value as [|value];
        [injection H as <-; cbn; try split; try reflexivity;
         try (exists 0; reflexivity) |]).
  now destruct value.
Qed.

Lemma isGuaranteedDivisible_sound_on_graph_witness :
  isGuaranteedDivisible scenario_graph 4 5 3 4 = Some true
  /\ (3 | 60).
Proof.
  split; [reflexivity|].
  exact (isGuaranteedDivisible_sound_on_graph
           scenario_graph (fun value => nth value [3; 5; 4; 20; 60; 60] 0)
           4 5 3 4 eq_refl scenario_assignment_consistent eq_refl).
Defined.
End GraphMeaningProofs.
